(** * cat-angular: breadcrumbs of the detail controller and the select
      configuration service

    A shallow embedding of
    - [src/main/javascript/controller/cat-base-detail-controller.js]
      (breadcrumb and ui stack construction, the rejection handler of
      [$scope.save]), and
    - [src/main/javascript/service/cat-select-config-service.js]
      (the provider's [config], [assignDeep] and [getConfig]).

    JavaScript objects live in an explicit store of mutable objects, so that
    the aliasing produced by the shallow [_.clone] is visible.  An object is
    the finite map of its own enumerable properties: names inherited from
    [Object.prototype] are outside the model, own keys are enumerated in the
    order of the map, and numbers are integers.  The lodash functions
    ([_.initial], [_.clone], [_.assign] with a callback, [_.isObject]) follow
    lodash 2.x, the version whose signatures the code uses. *)

From Stdlib Require Import ZArith Ascii String.
From stdpp Require Import gmap strings list fin_maps.

Local Open Scope string_scope.
Local Open Scope list_scope.

Set Warnings "-clear-no-such-hyp".

(** ** JavaScript string helpers used by the controller *)

Module JsString.

(** [String.prototype.toUpperCase] on one character, for the ASCII range
    (code points above 127 are left as they are). *)
Definition toUpperCase_ascii (c : ascii) : ascii :=
  let n := nat_of_ascii c in
  if (97 <=? n)%nat && (n <=? 122)%nat then ascii_of_nat (n - 32) else c.

(** [s.charAt(0)]: the first character as a string, or the empty string. *)
Definition charAt0 (s : string) : string :=
  match s with
  | EmptyString => ""
  | String c _ => String c ""
  end.

(** [s.substring(1)]. *)
Definition substring1 (s : string) : string :=
  match s with
  | EmptyString => ""
  | String _ r => r
  end.

Fixpoint toUpperCase (s : string) : string :=
  match s with
  | EmptyString => ""
  | String c r => String (toUpperCase_ascii c) (toUpperCase r)
  end.

(** [s.split(sep)] for a one character separator: always at least one piece,
    [n] separators give [n + 1] pieces. *)
Fixpoint split_acc (sep : ascii) (cur : string) (s : string) : list string :=
  match s with
  | EmptyString => [cur]
  | String c r =>
      if Ascii.eqb c sep then cur :: split_acc sep "" r
      else split_acc sep (cur +:+ String c "") r
  end.

Definition split (sep : ascii) (s : string) : list string := split_acc sep "" s.

(** [xs.join(sep)]. *)
Fixpoint join (sep : string) (xs : list string) : string :=
  match xs with
  | [] => ""
  | [x] => x
  | x :: rest => x +:+ sep +:+ join sep rest
  end.

End JsString.

(** lodash's [_.initial(array, n)]: everything but the last [n] elements. *)
Definition initial {A} (xs : list A) (n : nat) : list A :=
  take (length xs - n) xs.

(** ** Errors *)

Inductive exn :=
| TypeError (msg : string).

Inductive result (A : Type) :=
| Ok (a : A)
| Throw (e : exn).
Arguments Ok {A} a.
Arguments Throw {A} e.

Definition bind {A B} (r : result A) (k : A → result B) : result B :=
  match r with
  | Ok a => k a
  | Throw e => Throw e
  end.

Notation "x ←ᵣ r ; k" := (bind r (λ x, k))
  (at level 20, r at level 100, k at level 200, right associativity,
   format "x  ←ᵣ  r ;  '/' k").

(** ** The breadcrumb and ui stack builder of [CatBaseDetailController] *)

Module Breadcrumbs.

(** An api endpoint: [getEndpointName()] and the optional [parentEndpoint]. *)
#[warnings="-register-all"]
Inductive endpoint :=
| Endpoint (endpointName : string) (parent : option endpoint).

Definition getEndpointName (e : endpoint) : string :=
  match e with Endpoint n _ => n end.

Definition parentEndpoint (e : endpoint) : option endpoint :=
  match e with Endpoint _ p => p end.

(** An element of the [parents] array, read through [parent.name]. *)
Record parentObject := { name : string }.

(** [{title: ..., url: ...}]; the entry of the current item has no [url]. *)
Record breadcrumb := { title : string; url : option string }.

(** The two arrays under construction: the local [breadcrumbs] and
    [$scope.uiStack]. *)
Record crumbs := { breadcrumbs : list breadcrumb; uiStack : list breadcrumb }.

(** The [config] parameter, as far as the constructor reads it here. *)
Record config := { cfg_endpoint : endpoint; cfg_baseUrl : string }.

Definition capitalize (s : string) : string :=
  JsString.toUpperCase (JsString.charAt0 s) +:+ JsString.substring1 s.

Definition splitShiftAndJoin (path : string) (amount : nat) : string :=
  JsString.join "/" (initial (JsString.split "/" path) amount).

(** The [while (!_.isUndefined(parentEndpoint))] loop, lines 69-89.  The loop
    variables are [currentEndpoint] (with its [parentEndpoint]), [parentUrl]
    and [count]; [unshift] is a cons.  [parents[count++]] past the end of the
    array is [undefined], and reading [parent.name] from it throws. *)
Fixpoint ancestors (currentEndpoint : endpoint) (parents : list parentObject)
    (parentUrl : string) (count : nat) (st : crumbs) : result crumbs :=
  match currentEndpoint with
  | Endpoint _ None => Ok st
  | Endpoint currentName (Some parentEp) =>
      let parent := parents !! count in
      let parentUrl := splitShiftAndJoin parentUrl 1 in
      match parent with
      | None => Throw (TypeError "Cannot read property 'name' of undefined")
      | Some parent =>
          let detailBreadcrumb :=
            {| url := Some ("#" +:+ parentUrl +:+ "?tab=" +:+ currentName +:+ "s");
               title := name parent |} in
          let uiStack' := detailBreadcrumb :: uiStack st in
          let breadcrumbs' := detailBreadcrumb :: breadcrumbs st in
          let parentUrl := splitShiftAndJoin parentUrl 1 in
          let breadcrumb :=
            {| title := capitalize (getEndpointName parentEp) +:+ "s";
               url := Some ("#" +:+ parentUrl) |} in
          ancestors parentEp parents parentUrl (S count)
            {| breadcrumbs := breadcrumb :: breadcrumbs'; uiStack := uiStack' |}
      end
  end.

(** Lines 51-101 of the constructor: what is handed to [$breadcrumbs.set] and
    what [$scope.uiStack] holds afterwards.  [routeId] is [$routeParams.id]
    ([None] when it is undefined). *)
Definition build (cfg : config) (parents : list parentObject)
    (routeId : option string) : result crumbs :=
  let endpoint := cfg_endpoint cfg in
  let baseUrl := cfg_baseUrl cfg in
  st ←ᵣ match parentEndpoint endpoint with
        | Some _ =>
            ancestors endpoint parents baseUrl 0
              {| breadcrumbs := []; uiStack := [] |}
        | None =>
            Ok {| breadcrumbs :=
                    [ {| title := capitalize (getEndpointName endpoint) +:+ "s";
                         url := Some ("#" +:+ baseUrl) |} ];
                  uiStack := [] |}
        end;
  Ok {| breadcrumbs :=
          breadcrumbs st ++
            [ {| title := if decide (routeId = Some "new") then "New" else "";
                 url := None |} ];
        uiStack := uiStack st |}.

(** The number of ancestor levels of an endpoint. *)
Fixpoint levels (e : endpoint) : nat :=
  match e with
  | Endpoint _ None => 0
  | Endpoint _ (Some p) => S (levels p)
  end.

End Breadcrumbs.

(** ** The rejection handler of [$scope.save] *)

Module DetailController.

(** One element of [response.data.fieldErrors]. *)
Record fieldError := { field : string; message : string }.

(** The rejection passed to the error callback; [None] stands for a
    [response.data.fieldErrors] that is absent (or otherwise falsy). *)
Record response := { data_fieldErrors : option (list fieldError) }.

(** What the controller tells its collaborators. *)
Inductive effect :=
| ClearMessages
| BroadcastFormReset
| BroadcastFieldErrors (fieldErrors : gmap string (list string))
| LocationPath (path : string)
| ReplaceLast (title : string).

Section scope.
(** The type of the detail object, with the [id] a saved object carries and
    the result of [$scope.title()] on it. *)
Context {D : Type} (idOf : D → string) (titleOf : D → string).

Record scope := {
  detail : option D;
  editDetail : option D;
  dollar_fieldErrors : option (gmap string (list string));
  exists_ : bool;
  baseUrl : string;
  effects : list effect
}.

(** The outcome of the promise returned by [endpoint.save]. *)
Inductive outcome :=
| Resolved (data : D)
| Rejected (r : response).

(** The body of the [_.forEach] callback, lines 218-219:
    [fieldErrors[f] = fieldErrors[f] || []; fieldErrors[f].push(message)]. *)
Definition groupStep (fieldErrors : gmap string (list string))
    (fieldError : fieldError) : gmap string (list string) :=
  let f := field fieldError in
  let arr := default [] (fieldErrors !! f) in
  <[f := arr ++ [message fieldError]]> fieldErrors.

Definition groupByField (errs : list fieldError) : gmap string (list string) :=
  foldl groupStep ∅ errs.

(** The two callbacks given to [then], lines 199-224. *)
Definition save (o : outcome) (sc : scope) : scope :=
  match o with
  | Resolved data =>
      if exists_ sc then
        {| detail := Some data; editDetail := None;
           dollar_fieldErrors := None; exists_ := exists_ sc;
           baseUrl := baseUrl sc;
           effects := effects sc ++ [ClearMessages; ReplaceLast (titleOf data)] |}
      else
        {| detail := detail sc; editDetail := editDetail sc;
           dollar_fieldErrors := None; exists_ := exists_ sc;
           baseUrl := baseUrl sc;
           effects := effects sc ++
             [ClearMessages; BroadcastFormReset;
              LocationPath (baseUrl sc +:+ "/" +:+ idOf data)] |}
  | Rejected response =>
      match data_fieldErrors response with
      | None =>
          {| detail := detail sc; editDetail := editDetail sc;
             dollar_fieldErrors := None; exists_ := exists_ sc;
             baseUrl := baseUrl sc; effects := effects sc |}
      | Some errs =>
          let fieldErrors := groupByField errs in
          {| detail := detail sc; editDetail := editDetail sc;
             dollar_fieldErrors := Some fieldErrors; exists_ := exists_ sc;
             baseUrl := baseUrl sc;
             effects := effects sc ++ [BroadcastFieldErrors fieldErrors] |}
      end
  end.

End scope.

End DetailController.

(** ** The select configuration service *)

Module SelectConfig.

Abbreviation loc := positive (only parsing).

(** JavaScript values: primitives, and references to objects in the store. *)
Inductive val :=
| VUndefined
| VNull
| VBool (b : bool)
| VNum (n : Z)
| VStr (s : string)
| VRef (l : loc).

(** What kind of object a reference points to; all three satisfy
    [_.isObject]. *)
Inductive kind := KObject | KArray | KFunction.

(** An object: its kind and its own enumerable properties (an array holds its
    elements under the keys ["0"], ["1"], ...). *)
Record object := Obj { okind : kind; oprops : gmap string val }.

Abbreviation heap := (gmap loc object) (only parsing).

Definition isUndefined (v : val) : bool :=
  match v with VUndefined => true | _ => false end.

Definition isObject (v : val) : bool :=
  match v with VRef _ => true | _ => false end.

(** JavaScript truthiness, as used by [||] and by lodash's [if (!iterable)]. *)
Definition truthy (v : val) : bool :=
  match v with
  | VUndefined | VNull => false
  | VBool b => b
  | VNum n => negb (n =? 0)%Z
  | VStr s => negb (String.eqb s "")
  | VRef _ => true
  end.

(** [v[k]]: a missing property reads as [undefined]. *)
Definition getProp (h : heap) (v : val) (k : string) : val :=
  match v with
  | VRef l =>
      match h !! l with
      | Some o => default VUndefined (oprops o !! k)
      | None => VUndefined
      end
  | _ => VUndefined
  end.

(** [v[k] = x], mutating the object in the store (lodash is not strict
    code: writing to a primitive does nothing). *)
Definition setProp (h : heap) (v : val) (k : string) (x : val) : heap :=
  match v with
  | VRef l =>
      match h !! l with
      | Some o => <[l := Obj (okind o) (<[k := x]> (oprops o))]> h
      | None => h
      end
  | _ => h
  end.

(** [keys(v)]: the own enumerable property names of an object, none for a
    primitive. *)
Definition keys (h : heap) (v : val) : list string :=
  match v with
  | VRef l =>
      match h !! l with
      | Some o => (map_to_list (oprops o)).*1
      | None => []
      end
  | _ => []
  end.

(** [{}] and friends: a new object at an unused location. *)
Definition alloc (h : heap) (o : object) : heap * val :=
  let l := fresh (dom h) in (<[l := o]> h, VRef l).

(** lodash's shallow [_.clone]: primitives and functions are returned as
    they are, a plain object or an array is copied one level deep, its
    property values are shared with the original. *)
Definition clone (h : heap) (v : val) : heap * val :=
  match v with
  | VRef l =>
      match h !! l with
      | Some (Obj KFunction _) => (h, v)
      | Some (Obj k props) => alloc h (Obj k props)
      | None => (h, v)
      end
  | _ => (h, v)
  end.

(** The loop of lodash's [_.assign(target, source, callback)] over the keys of
    [source], taken once before the loop:
    [result[index] = callback(result[index], iterable[index])]. *)
Fixpoint assign_loop (callback : heap → val → val → option (heap * val))
    (target source : val) (ks : list string) (h : heap) : option heap :=
  match ks with
  | [] => Some h
  | k :: ks =>
      match callback h (getProp h target k) (getProp h source k) with
      | Some (h1, r) => assign_loop callback target source ks (setProp h1 target k r)
      | None => None
      end
  end.

(** [_.assign(target, source, callback)]: a falsy target is returned at once,
    a source that is not an object has no keys; the target is returned. *)
Definition assign (callback : heap → val → val → option (heap * val))
    (h : heap) (target source : val) : option (heap * val) :=
  if truthy target then
    match assign_loop callback target source (keys h source) h with
    | Some h' => Some (h', target)
    | None => None
    end
  else Some (h, target).

(** [assignDeep], lines 27-35.  [None] is a recursion that does not end within
    [fuel] nested calls (in JavaScript: on a cyclic object graph). *)
Fixpoint assignDeep (fuel : nat) (h : heap) (target source : val)
    : option (heap * val) :=
  match fuel with
  | 0 => None
  | S fuel =>
      assign (λ h targetProperty sourceProperty,
                if isObject targetProperty && isObject sourceProperty
                then assignDeep fuel h targetProperty sourceProperty
                else Some (h, sourceProperty))
             h target source
  end.

(** The callback [assignDeep] hands to [_.assign], lines 28-34, for the
    recursive calls allowed [fuel] further levels. *)
Definition deepCallback (fuel : nat) (h : heap)
    (targetProperty sourceProperty : val) : option (heap * val) :=
  if isObject targetProperty && isObject sourceProperty
  then assignDeep fuel h targetProperty sourceProperty
  else Some (h, sourceProperty).

(** [configs[name]]: [undefined] when nothing is registered. *)
Definition registered (configs : gmap string val) (name : string) : val :=
  default VUndefined (configs !! name).

(** The provider's [config(name, config)], lines 14-20: the registry after
    the call and the returned value. *)
Definition config (configs : gmap string val) (name : string) (cfg : val)
    : gmap string val * val :=
  let configs' := if isUndefined cfg then configs else <[name := cfg]> configs in
  (configs', registered configs' name).

(** [_.clone(config) || {}], the first argument at line 47. *)
Definition cloneOrEmpty (h : heap) (config : val) : heap * val :=
  let '(h1, c) := clone h config in
  if truthy c then (h1, c) else alloc h1 (Obj KObject ∅).

(** [getConfig(name, options)], lines 40-48. *)
Definition getConfig (fuel : nat) (configs : gmap string val) (h : heap)
    (name : string) (options : val) : option (heap * val) :=
  let config := registered configs name in
  if isUndefined config && isUndefined options then Some (h, VUndefined)
  else
    let '(h1, target) := cloneOrEmpty h config in
    assignDeep fuel h1 target options.

(** *** Values as trees, and deep equality *)

(** The value a reference stands for, read off the store. *)
#[warnings="-register-all"]
Inductive tree :=
| TUndefined
| TNull
| TBool (b : bool)
| TNum (n : Z)
| TStr (s : string)
| TNode (k : kind) (props : gmap string tree).

Fixpoint reify (fuel : nat) (h : heap) (v : val) : option tree :=
  match v with
  | VUndefined => Some TUndefined
  | VNull => Some TNull
  | VBool b => Some (TBool b)
  | VNum n => Some (TNum n)
  | VStr s => Some (TStr s)
  | VRef l =>
      match fuel with
      | 0 => None
      | S fuel =>
          match h !! l with
          | Some o =>
              if bool_decide (map_Forall (λ _ x, is_Some (reify fuel h x)) (oprops o))
              then Some (TNode (okind o) (omap (reify fuel h) (oprops o)))
              else None
          | None => None
          end
      end
  end.

Definition isNode (t : tree) : bool :=
  match t with TNode _ _ => true | _ => false end.

(** What [assignDeep(target, source)] makes of its target, on trees: a source
    that is no object leaves the target as it is; otherwise every key of the
    source is assigned, recursively where both values are objects, and the
    target keeps its kind and its other keys. *)
Fixpoint deepAssign (target source : tree) {struct target} : tree :=
  match target, source with
  | TNode k pt, TNode _ ps =>
      TNode k (merge (λ x y, match x, y with
                             | Some x, Some y =>
                                 Some (if isNode x && isNode y
                                       then deepAssign x y else y)
                             | Some x, None => Some x
                             | None, y => y
                             end) pt ps)
  | _, _ => target
  end.

(** The tree of [_.clone(config) || {}]. *)
Definition cloneOrEmptyTree (config : tree) : tree :=
  match config with
  | TNode _ _ => config
  | _ => TNode KObject ∅
  end.

(** [v] in store [h] stands for the tree [t]. *)
Definition stands_for (h : heap) (v : val) (t : tree) : Prop :=
  ∃ n, reify n h v = Some t.

(** Two values, each in its store, are deep-equal when they stand for the
    same tree. *)
Definition deep_equal (h1 : heap) (v1 : val) (h2 : heap) (v2 : val) : Prop :=
  ∃ n1 n2 t, reify n1 h1 v1 = Some t ∧ reify n2 h2 v2 = Some t.

(** *** Shapes of object graphs

    The hypotheses under which [getConfig] is specified: the registered
    config is a finite tree of objects, the options are a finite acyclic
    graph, and the two share no object. *)

(** [overlay pt ps] is the property map of a target after one [_.assign] pass
    of [assignDeep]'s callback over a source with properties [ps]: a key of
    the source whose two values are objects keeps the target's reference (the
    recursive call returns its target), every other key of the source takes
    the source's value. *)
Definition overlay1 (tv sv : option val) : option val :=
  match sv with
  | None => tv
  | Some s => if isObject (default VUndefined tv) && isObject s then tv else Some s
  end.

Definition overlay (pt ps : gmap string val) : gmap string val :=
  merge overlay1 pt ps.

(** The property map [P'] after the assignment loop has run over the keys
    [ks] of a source with properties [ps], starting from [P]. *)
Definition overlaid_on (ks : list string) (P ps P' : gmap string val) : Prop :=
  ∀ k, P' !! k = if decide (k ∈ ks) then overlay1 (P !! k) (ps !! k) else P !! k.

(** [covered h G n v]: every object reachable from [v] is in [G] and in the
    store, and no chain of references from [v] is longer than [n]. *)
Inductive covered (h : heap) (G : gset loc) : nat → val → Prop :=
| covered_prim n v :
    isObject v = false → covered h G n v
| covered_ref n l o :
    l ∈ G → h !! l = Some o →
    (∀ k v, oprops o !! k = Some v → covered h G n v) →
    covered h G (S n) (VRef l).

(** [tree_shaped h F n v]: [v] is a tree of depth at most [n] whose objects
    lie in [F]: the subtrees under two different keys share no object, and no
    object contains itself.  [Fc k] is the footprint of the subtree at key
    [k]. *)
Inductive tree_shaped (h : heap) : gset loc → nat → val → Prop :=
| tree_prim F n v :
    isObject v = false → tree_shaped h F n v
| tree_ref F n l o (Fc : string → gset loc) :
    l ∈ F → h !! l = Some o →
    (∀ k v, oprops o !! k = Some v → tree_shaped h (Fc k) n v) →
    (∀ k, Fc k ⊆ F ∖ {[l]}) →
    (∀ k1 k2, k1 ≠ k2 → Fc k1 ## Fc k2) →
    tree_shaped h F (S n) (VRef l).

(** [merged h C n t s]: the object [t] already carries everything a deep
    assignment of [s] would write into it (all within [C]). *)
Inductive merged (h : heap) (C : gset loc) : nat → val → val → Prop :=
| merged_ref n lt ls ot os :
    lt ∈ C → ls ∈ C →
    h !! lt = Some ot → h !! ls = Some os →
    overlay (oprops ot) (oprops os) = oprops ot →
    (∀ k tv sv, oprops ot !! k = Some tv → oprops os !! k = Some sv →
                isObject tv && isObject sv = true → merged h C n tv sv) →
    merged h C (S n) (VRef lt) (VRef ls).

(** The own properties of a value: none for a primitive. *)
Definition propsOf (h : heap) (v : val) : gmap string val :=
  match v with
  | VRef l => match h !! l with Some o => oprops o | None => ∅ end
  | _ => ∅
  end.

End SelectConfig.

(** ** The scenarios of the specification *)

Module Scenarios.
Import Breadcrumbs SelectConfig.

(** Endpoint "widget" without a parent, and with the parent "gadget". *)
Definition widget : endpoint := Endpoint "widget" None.
Definition gadget : endpoint := Endpoint "gadget" None.
Definition gadgetWidget : endpoint := Endpoint "widget" (Some gadget).

Definition acme : parentObject := {| name := "Acme" |}.

(** The store for the merge scenario: [1 ↦ {a: @2}], [2 ↦ {x: 0, y: 2}] is
    the registered config, [3 ↦ {a: @4}], [4 ↦ {x: 1}] the options. *)
Definition mergeStore : gmap positive object :=
  {[ 1%positive := Obj KObject {[ "a" := VRef 2 ]};
     2%positive := Obj KObject {[ "x" := VNum 0; "y" := VNum 2 ]};
     3%positive := Obj KObject {[ "a" := VRef 4 ]};
     4%positive := Obj KObject {[ "x" := VNum 1 ]} ]}.

(** The store for the array scenario: [1 ↦ {a: @2}], [2 ↦ {x: 1}] is the
    registered config, [3 ↦ {a: @4}], [4 ↦ [1, 2]] the options. *)
Definition arrayStore : gmap positive object :=
  {[ 1%positive := Obj KObject {[ "a" := VRef 2 ]};
     2%positive := Obj KObject {[ "x" := VNum 1 ]};
     3%positive := Obj KObject {[ "a" := VRef 4 ]};
     4%positive := Obj KArray {[ "0" := VNum 1; "1" := VNum 2 ]} ]}.

(** [{a: {x: 0, y: 2}}], [{a: {x: 1}}], [{a: {x: 1, y: 2}}]. *)
Definition tree_a_x0y2 : tree :=
  TNode KObject {[ "a" := TNode KObject {[ "x" := TNum 0; "y" := TNum 2 ]} ]}.
Definition tree_a_x1 : tree :=
  TNode KObject {[ "a" := TNode KObject {[ "x" := TNum 1 ]} ]}.
Definition tree_a_x1y2 : tree :=
  TNode KObject {[ "a" := TNode KObject {[ "x" := TNum 1; "y" := TNum 2 ]} ]}.

(** [{a: [1, 2]}] and [{a: {x: 1, "0": 1, "1": 2}}]. *)
Definition tree_a_array12 : tree :=
  TNode KObject {[ "a" := TNode KArray {[ "0" := TNum 1; "1" := TNum 2 ]} ]}.
Definition tree_a_x1_01 : tree :=
  TNode KObject
    {[ "a" := TNode KObject {[ "x" := TNum 1; "0" := TNum 1; "1" := TNum 2 ]} ]}.

End Scenarios.

(** ** Counting separators in a path *)

Module Paths.

(** The number of occurrences of a character in a string. *)
Fixpoint countChar (c : ascii) (s : string) : nat :=
  match s with
  | EmptyString => 0
  | String d r => (if Ascii.eqb d c then 1 else 0) + countChar c r
  end.

(** A path segment: a string without ["/"]. *)
Definition segment (s : string) : Prop := countChar "/" s = 0.

(** One application of [splitShiftAndJoin(url, 1)]. *)
Definition strip (url : string) : string := Breadcrumbs.splitShiftAndJoin url 1.

End Paths.

(** ** Reading the breadcrumbs *)

Module BreadcrumbShape.
Import Breadcrumbs.

(** The endpoint at the top of the parent chain. *)
Fixpoint root (e : endpoint) : endpoint :=
  match e with
  | Endpoint _ (Some p) => root p
  | Endpoint _ None => e
  end.

(** An entry with a url, which starts with ["#"]. *)
Definition linked (b : breadcrumb) : Prop :=
  ∃ u, url b = Some ("#" +:+ u).

(** The entry of the current item, pushed at lines 97-101. *)
Definition terminal (routeId : option string) : breadcrumb :=
  {| title := if decide (routeId = Some "new") then "New" else ""; url := None |}.

End BreadcrumbShape.

(** ** Sequences of registrations *)

Module Registry.
Import SelectConfig.

(** The registry after a sequence of calls [config(name, cfg)] of the
    provider, made in the order of the list. *)
Definition configAll (configs : gmap string val) (calls : list (string * val))
    : gmap string val :=
  foldl (λ cs call, (config cs call.1 call.2).1) configs calls.


End Registry.

(** ** Counting grouped messages *)

Module Grouping.


End Grouping.

(** ** The scope functions of the detail page *)

Module DetailLifecycle.
Import DetailController.

(** [$scope.exists], line 145: [!!$routeParams.id && $routeParams.id !== 'new']. *)
Definition exists_of (routeId : option string) : bool :=
  match routeId with
  | Some id => negb (String.eqb id "") && negb (String.eqb id "new")
  | None => false
  end.

Section lifecycle.
Context {D : Type} (idOf titleOf : D → string).
(** [new Model()], and what lines 153-155 and 163-165 do to the object put
    in [editDetail]: [setParent(parents[0])] where the model has such a
    function, nothing where it has not. *)
Context (newModel : D) (setParent : D → D).

(** The scope together with the number of calls of [$window.history.back()]. *)
Record page := { sc : @scope D; historyBack : nat }.

(** [$scope.title], lines 119-125, with [titleOf] for line 124. *)
Definition title (s : @scope D) : string :=
  match detail s with
  | None => ""
  | Some data => titleOf data
  end.

(** [update], lines 127-131. *)
Definition update (s : @scope D) : @scope D :=
  {| detail := detail s; editDetail := editDetail s;
     dollar_fieldErrors := dollar_fieldErrors s; exists_ := exists_ s;
     baseUrl := baseUrl s;
     effects := effects s ++ [ReplaceLast (title s)] |}.

(** The callback of [reload], lines 137-140. *)
Definition reloaded (data : D) (s : @scope D) : @scope D :=
  update {| detail := Some data; editDetail := editDetail s;
            dollar_fieldErrors := dollar_fieldErrors s; exists_ := exists_ s;
            baseUrl := baseUrl s; effects := effects s |}.

(** [$scope.add], lines 151-156. *)
Definition add (s : @scope D) : @scope D :=
  {| detail := detail s; editDetail := Some (setParent newModel);
     dollar_fieldErrors := dollar_fieldErrors s; exists_ := exists_ s;
     baseUrl := baseUrl s; effects := effects s |}.

(** [$scope.edit], lines 161-166.  [angular.copy(undefined)] is [undefined],
    and reading [setParent] of it at line 163 throws, after the assignment
    of line 162. *)
Definition edit (s : @scope D) : @scope D * option exn :=
  match detail s with
  | Some data =>
      ({| detail := detail s; editDetail := Some (setParent data);
          dollar_fieldErrors := dollar_fieldErrors s; exists_ := exists_ s;
          baseUrl := baseUrl s; effects := effects s |}, None)
  | None =>
      ({| detail := detail s; editDetail := None;
          dollar_fieldErrors := dollar_fieldErrors s; exists_ := exists_ s;
          baseUrl := baseUrl s; effects := effects s |},
       Some (TypeError "Cannot read property 'setParent' of undefined"))
  end.

(** [$scope.cancelEdit], lines 172-181. *)
Definition cancelEdit (p : page) : page :=
  let s := sc p in
  if exists_ s then
    {| sc := {| detail := detail s; editDetail := None;
                dollar_fieldErrors := None; exists_ := exists_ s;
                baseUrl := baseUrl s;
                effects := effects s ++ [BroadcastFormReset; ClearMessages] |};
       historyBack := historyBack p |}
  else
    {| sc := {| detail := detail s; editDetail := editDetail s;
                dollar_fieldErrors := dollar_fieldErrors s; exists_ := exists_ s;
                baseUrl := baseUrl s;
                effects := effects s ++ [BroadcastFormReset] |};
       historyBack := S (historyBack p) |}.

(** The callback of [$scope.remove], lines 187-189. *)
Definition removed (s : @scope D) : @scope D :=
  {| detail := detail s; editDetail := editDetail s;
     dollar_fieldErrors := dollar_fieldErrors s; exists_ := exists_ s;
     baseUrl := baseUrl s;
     effects := effects s ++ [LocationPath (baseUrl s)] |}.

(** The scope the constructor sets up, lines 41-43, 114 and 145, and the
    branch it runs at lines 227-239.  [reload()] only sends the request: its
    callback runs later. *)
Definition init (detail0 : option D) (routeId : option string) (base : string)
    : page :=
  let s := {| detail := detail0; editDetail := None;
              dollar_fieldErrors := Some ∅; exists_ := exists_of routeId;
              baseUrl := base; effects := [] |} in
  {| sc := if exists_ s
           then match detail0 with None => s | Some _ => update s end
           else match detail0 with None => add s | Some _ => (edit s).1 end;
     historyBack := 0 |}.

(** What happens on the page after the constructor: a call of a scope
    function, or the callback of a pending request. *)
Inductive action :=
| Add
| Edit
| CancelEdit
| Saved (o : @outcome D)
| Removed
| Reloaded (data : D).

Definition step (p : page) (a : action) : page :=
  match a with
  | Add => {| sc := add (sc p); historyBack := historyBack p |}
  | Edit => {| sc := (edit (sc p)).1; historyBack := historyBack p |}
  | CancelEdit => cancelEdit p
  | Saved o => {| sc := save idOf titleOf o (sc p); historyBack := historyBack p |}
  | Removed => {| sc := removed (sc p); historyBack := historyBack p |}
  | Reloaded data => {| sc := reloaded data (sc p); historyBack := historyBack p |}
  end.

Definition run (trace : list action) (p : page) : page := foldl step p trace.

(** The number of calls of [cancelEdit] in a trace. *)
Definition cancels (trace : list action) : nat :=
  sum_list_with (λ a, match a with CancelEdit => 1 | _ => 0 end) trace.
End lifecycle.

End DetailLifecycle.

(** ** Facts about the store model of the select configuration service *)

Module SelectConfigFacts.
Import SelectConfig.

#[local] Arguments getProp : simpl never.
#[local] Arguments setProp : simpl never.
#[local] Arguments keys : simpl never.

(** *** One assignment pass on property maps *)

Lemma lookup_overlay pt ps k :
  overlay pt ps !! k = overlay1 (pt !! k) (ps !! k).
Proof. unfold overlay. rewrite lookup_merge. by destruct (pt !! k), (ps !! k). Qed.

Lemma overlay1_idem x y : overlay1 (overlay1 x y) y = overlay1 x y.
Proof.
  destruct y as [s|]; simpl; [|done].
  destruct (isObject (default VUndefined x) && isObject s) eqn:E; simpl.
  - by rewrite E.
  - by destruct (isObject s && isObject s).
Qed.

Lemma overlay_idem pt ps : overlay (overlay pt ps) ps = overlay pt ps.
Proof. apply map_eq; intros k. rewrite !lookup_overlay. apply overlay1_idem. Qed.

Lemma overlay_self p : overlay p p = p.
Proof.
  apply map_eq; intros k. rewrite lookup_overlay.
  destruct (p !! k) as [v|]; simpl; [|done]. by destruct (isObject v && isObject v).
Qed.

Lemma overlay_empty_r p : overlay p ∅ = p.
Proof. apply map_eq; intros k. by rewrite lookup_overlay, lookup_empty. Qed.

(** *** Shapes: depth and cover can be enlarged, only the objects in the
    cover matter *)
Lemma covered_mono h G G' n n' v :
  covered h G n v → G ⊆ G' → (n ≤ n')%nat → covered h G' n' v.
Proof.
  intros Hc. revert n'. induction Hc as [n v Hv|n l o Hl Ho Hch IH]; intros n' HG Hn.
  - by apply covered_prim.
  - destruct n' as [|n']; [lia|].
    eapply covered_ref; [set_solver|done|]. intros k v Hk. eapply IH; [done|done|lia].
Qed.

Lemma covered_local h h' G n v :
  covered h G n v → (∀ l, l ∈ G → h' !! l = h !! l) → covered h' G n v.
Proof.
  intros Hc Hag. induction Hc as [n v Hv|n l o Hl Ho Hch IH].
  - by apply covered_prim.
  - eapply covered_ref; [done| |done]. by rewrite Hag.
Qed.

Lemma covered_dom h G n v : covered h G n v → covered h (G ∩ dom h) n v.
Proof.
  induction 1 as [n v Hv|n l o Hl Ho Hch IH].
  - by apply covered_prim.
  - eapply covered_ref; [|done|done].
    apply elem_of_intersection; split; [done|]. apply elem_of_dom; eauto.
Qed.

Lemma tree_covered h F n v : tree_shaped h F n v → covered h F n v.
Proof.
  induction 1 as [F n v Hv|F n l o Fc Hl Ho Hch IH Hsub Hdisj].
  - by apply covered_prim.
  - eapply covered_ref; [done|done|]. intros k v Hk.
    eapply covered_mono; [by eapply IH| |done]. pose proof (Hsub k). set_solver.
Qed.

Lemma tree_local h h' F n v :
  tree_shaped h F n v → (∀ l, l ∈ F → h' !! l = h !! l) → tree_shaped h' F n v.
Proof.
  intros Ht. induction Ht as [F n v Hv|F n l o Fc Hl Ho Hch IH Hsub Hdisj]; intros Hag.
  - by apply tree_prim.
  - eapply (tree_ref _ _ _ _ _ Fc); [done|by rewrite Hag| |done|done].
    intros k v Hk. eapply IH; [done|]. intros l' Hl'. apply Hag.
    pose proof (Hsub k). set_solver.
Qed.

Lemma tree_dom h F n v : tree_shaped h F n v → tree_shaped h (F ∩ dom h) n v.
Proof.
  induction 1 as [F n v Hv|F n l o Fc Hl Ho Hch IH Hsub Hdisj].
  - by apply tree_prim.
  - eapply (tree_ref _ _ _ _ _ (λ k, Fc k ∩ dom h)); [|done|done| |].
    + apply elem_of_intersection; split; [done|]. apply elem_of_dom; eauto.
    + intros k. pose proof (Hsub k). set_solver.
    + intros k1 k2 Hne. pose proof (Hdisj k1 k2 Hne). set_solver.
Qed.

Lemma merged_mono_set h C C' n t s : merged h C n t s → C ⊆ C' → merged h C' n t s.
Proof.
  induction 1 as [n lt ls ot os Hlt Hls Hot Hos Hov Hch IH]; intros HC.
  eapply merged_ref; [set_solver|set_solver|done|done|done|].
  intros k tv sv Ht Hs Hb. by eapply IH.
Qed.

Lemma merged_local h h' C n t s :
  merged h C n t s → (∀ l, l ∈ C → h' !! l = h !! l) → merged h' C n t s.
Proof.
  induction 1 as [n lt ls ot os Hlt Hls Hot Hos Hov Hch IH]; intros Hag.
  eapply merged_ref; [done|done|by rewrite Hag|by rewrite Hag|done|].
  intros k tv sv Ht Hs Hb. by eapply IH.
Qed.

(** An acyclic object is merged with itself. *)
Lemma merged_self h G n v :
  covered h G n v → isObject v = true → merged h G n v v.
Proof.
  induction 1 as [n v Hv|n l o Hl Ho Hch IH]; intros Hobj; [congruence|].
  eapply merged_ref; [done|done|done|done|apply overlay_self|].
  intros k tv sv Ht Hs Hb. assert (tv = sv) as -> by congruence.
  apply (IH k sv Hs). by destruct (isObject sv).
Qed.

(** *** Property reads and writes, and assignments that change nothing *)

Lemma assignDeep_unfold n h t s :
  assignDeep (S n) h t s = assign (deepCallback n) h t s.
Proof. reflexivity. Qed.

Lemma keys_ref h l o :
  h !! l = Some o → keys h (VRef l) = (map_to_list (oprops o)).*1.
Proof. intros H. unfold keys. by rewrite H. Qed.

Lemma keys_NoDup h v : NoDup (keys h v).
Proof.
  destruct v as [| | | | |l]; unfold keys; try apply NoDup_nil_2.
  destruct (h !! l); [apply NoDup_fst_map_to_list|apply NoDup_nil_2].
Qed.

Lemma elem_of_keys h l o k :
  h !! l = Some o → k ∈ keys h (VRef l) → is_Some (oprops o !! k).
Proof.
  intros H. rewrite (keys_ref _ _ _ H). intros Hk.
  apply list_elem_of_fmap in Hk as [[k' v] [-> Hkv]].
  apply elem_of_map_to_list in Hkv. eauto.
Qed.

Lemma getProp_ref h l o k :
  h !! l = Some o → getProp h (VRef l) k = default VUndefined (oprops o !! k).
Proof. intros H. unfold getProp. by rewrite H. Qed.

Lemma setProp_ref h l o k x :
  h !! l = Some o →
  setProp h (VRef l) k x = <[l := Obj (okind o) (<[k := x]> (oprops o))]> h.
Proof. intros H. unfold setProp. by rewrite H. Qed.

Lemma setProp_same h l o k x :
  h !! l = Some o → oprops o !! k = Some x → setProp h (VRef l) k x = h.
Proof.
  intros H Hk. rewrite (setProp_ref _ _ _ _ _ H). rewrite (insert_id _ _ _ Hk).
  apply insert_id. by destruct o.
Qed.

Lemma isObject_default_Some (o : option val) :
  isObject (default VUndefined o) = true → ∃ l, o = Some (VRef l).
Proof. destruct o as [[]|]; simpl; intros; try discriminate; eauto. Qed.

Lemma deepCallback_rec n h tp sp :
  isObject tp && isObject sp = true →
  deepCallback n h tp sp = assignDeep n h tp sp.
Proof. unfold deepCallback. by intros ->. Qed.

Lemma deepCallback_leaf n h tp sp :
  isObject tp && isObject sp = false → deepCallback n h tp sp = Some (h, sp).
Proof. unfold deepCallback. by intros ->. Qed.

(** Assigning into an object that is already merged with the source writes
    back what is there: the store does not change. *)
Lemma assign_loop_merged n C h lt ls ot os ks :
  (∀ t s, merged h C n t s → assignDeep n h t s = Some (h, t)) →
  h !! lt = Some ot → h !! ls = Some os →
  overlay (oprops ot) (oprops os) = oprops ot →
  (∀ k tv sv, oprops ot !! k = Some tv → oprops os !! k = Some sv →
              isObject tv && isObject sv = true → merged h C n tv sv) →
  (∀ k, k ∈ ks → is_Some (oprops os !! k)) →
  assign_loop (deepCallback n) (VRef lt) (VRef ls) ks h = Some h.
Proof.
  intros IH Hot Hos Hov Hch. induction ks as [|k ks IHks]; intros Hks; [done|].
  simpl. rewrite (getProp_ref _ _ _ _ Hot), (getProp_ref _ _ _ _ Hos).
  destruct (Hks k) as [sv Hsv]; [by left|]. rewrite Hsv. simpl.
  unfold deepCallback.
  destruct (isObject (default VUndefined (oprops ot !! k)) && isObject sv) eqn:Hb.
  - apply andb_prop in Hb as Hb'. destruct Hb' as [Hb1 Hb2].
    apply isObject_default_Some in Hb1 as [l Hl]. rewrite Hl in Hb |- *. simpl.
    rewrite (IH _ _ (Hch _ _ _ Hl Hsv Hb)).
    rewrite (setProp_same _ _ _ _ _ Hot Hl). apply IHks. intros; apply Hks; by right.
  - assert (oprops ot !! k = Some sv) as Hk.
    { rewrite <- Hov at 1. rewrite lookup_overlay, Hsv. simpl. by rewrite Hb. }
    rewrite (setProp_same _ _ _ _ _ Hot Hk). apply IHks. intros; apply Hks; by right.
Qed.

Lemma assignDeep_merged C n : ∀ h t s,
  merged h C n t s → assignDeep n h t s = Some (h, t).
Proof.
  induction n as [|n IH]; intros h t s Hm; inversion Hm; subst.
  rewrite assignDeep_unfold. unfold assign. simpl truthy. cbv iota.
  erewrite assign_loop_merged; eauto.
  intros k Hk. by eapply elem_of_keys.
Qed.

Lemma overlaid_on_nil P ps : overlaid_on [] P ps P.
Proof. intros k. rewrite decide_False; [done|]. apply not_elem_of_nil. Qed.

Lemma overlaid_on_cons k ks P ps P' r :
  k ∉ ks → overlay1 (P !! k) (ps !! k) = Some r →
  overlaid_on ks (<[k := r]> P) ps P' → overlaid_on (k :: ks) P ps P'.
Proof.
  intros Hk Hr HP j. rewrite (HP j). destruct (decide (j = k)) as [->|Hne].
  - rewrite decide_False by done. rewrite decide_True by left.
    by rewrite lookup_insert_eq.
  - rewrite lookup_insert_ne by done.
    destruct (decide (j ∈ ks)) as [Hj|Hj].
    + rewrite decide_True; [done|by right].
    + rewrite decide_False; [done|]. rewrite elem_of_cons. tauto.
Qed.

Lemma overlaid_on_all ks P ps P' :
  (∀ k, k ∈ ks ↔ is_Some (ps !! k)) → overlaid_on ks P ps P' → P' = overlay P ps.
Proof.
  intros Hks HP. apply map_eq; intros k. rewrite (HP k), lookup_overlay.
  destruct (decide (k ∈ ks)) as [Hk|Hk]; [done|].
  destruct (ps !! k) eqn:E; [|done]. exfalso. apply Hk, Hks. eauto.
Qed.

Lemma keys_spec h l o k :
  h !! l = Some o → k ∈ keys h (VRef l) ↔ is_Some (oprops o !! k).
Proof.
  intros H. split; [by apply elem_of_keys|]. intros [v Hv].
  rewrite (keys_ref _ _ _ H). apply list_elem_of_fmap. exists (k, v).
  split; [done|]. by apply elem_of_map_to_list.
Qed.

(** The loop on a target that nothing else refers to, over children that are
    already merged: only the target object changes. *)
Lemma assign_loop_fresh n C lt ls kd os ks : ∀ h P,
  NoDup ks →
  h !! lt = Some (Obj kd P) → h !! ls = Some os → lt ≠ ls → lt ∉ C →
  (∀ k, k ∈ ks → is_Some (oprops os !! k)) →
  (∀ k tv sv, k ∈ ks → P !! k = Some tv → oprops os !! k = Some sv →
              isObject tv && isObject sv = true → merged h C n tv sv) →
  ∃ P', assign_loop (deepCallback n) (VRef lt) (VRef ls) ks h
          = Some (<[lt := Obj kd P']> h) ∧
        overlaid_on ks P (oprops os) P'.
Proof.
  induction ks as [|k ks IHks]; intros h P Hnd Hlt Hls Hne HC Hks Hch.
  - exists P. split; [|apply overlaid_on_nil]. simpl. by rewrite insert_id.
  - apply NoDup_cons in Hnd as [Hk Hnd].
    destruct (Hks k) as [sv Hsv]; [by left|].
    cbn [assign_loop].
    rewrite (getProp_ref _ _ _ _ Hlt), (getProp_ref _ _ _ _ Hls), Hsv. simpl.
    destruct (isObject (default VUndefined (P !! k)) && isObject sv) eqn:Hb.
    + rewrite (deepCallback_rec _ _ _ _ Hb).
      apply andb_prop in Hb as Hb'. destruct Hb' as [Hb1 Hb2].
      apply isObject_default_Some in Hb1 as [l Hl]. rewrite Hl in Hb |- *. simpl.
      rewrite (assignDeep_merged C n h (VRef l) sv); [|eapply Hch; eauto; by left].
      rewrite (setProp_same _ _ (Obj kd P) _ _ Hlt Hl).
      destruct (IHks h P) as (P' & Hrun & HP'); try done.
      { intros; apply Hks; by right. }
      { intros j tv sv' Hj. apply Hch. by right. }
      exists P'. split; [done|].
      eapply overlaid_on_cons; [done| |by rewrite insert_id].
      by rewrite Hl, Hsv; simpl; rewrite Hb2.
    + rewrite (deepCallback_leaf _ _ _ _ Hb).
      rewrite (setProp_ref _ _ _ _ _ Hlt). simpl.
      set (h1 := <[lt := Obj kd (<[k := sv]> P)]> h).
      destruct (IHks h1 (<[k := sv]> P)) as (P' & Hrun & HP'); try done.
      { unfold h1. by rewrite lookup_insert_eq. }
      { unfold h1. by rewrite lookup_insert_ne. }
      { intros; apply Hks; by right. }
      { intros j tv sv' Hj Htv Hsv' Hb'.
        assert (j ≠ k) by (intros ->; done). rewrite lookup_insert_ne in Htv by done.
        eapply merged_local; [eapply Hch; eauto; by right|].
        intros l Hl. unfold h1. rewrite lookup_insert_ne; [done|]. by intros ->. }
      exists P'. split.
      * rewrite Hrun. unfold h1. by rewrite insert_insert_eq.
      * eapply overlaid_on_cons; [done| |done]. rewrite Hsv. simpl. by rewrite Hb.
Qed.

(** *** Reading values off the store *)

Lemma reify_prim n h v : isObject v = false → is_Some (reify n h v).
Proof. destruct v, n; simpl; intros; try discriminate; eauto. Qed.

Lemma reify_prim_eq n n' h h' v :
  isObject v = false → reify n h v = reify n' h' v.
Proof. destruct v, n, n'; simpl; intros; try discriminate; eauto. Qed.

Lemma reify_ref n h l o :
  h !! l = Some o →
  (∀ k x, oprops o !! k = Some x → is_Some (reify n h x)) →
  reify (S n) h (VRef l) = Some (TNode (okind o) (omap (reify n h) (oprops o))).
Proof.
  intros Ho Hch. simpl. rewrite Ho. rewrite bool_decide_eq_true_2; [done|].
  intros k x Hk. by eapply Hch.
Qed.

Lemma reify_covered h C n v : covered h C n v → is_Some (reify n h v).
Proof.
  induction 1 as [n v Hv|n l o Hl Ho Hch IH]; [by apply reify_prim|].
  rewrite (reify_ref _ _ _ _ Ho); eauto.
Qed.

Lemma reify_local h h' C n v :
  covered h C n v → (∀ l, l ∈ C → h' !! l = h !! l) → reify n h' v = reify n h v.
Proof.
  intros Hc Hag. induction Hc as [n v Hv|n l o Hl Ho Hch IH];
    [by apply reify_prim_eq|].
  assert (∀ k x, oprops o !! k = Some x → is_Some (reify n h x)) as Hs.
  { intros k x Hk. eapply reify_covered; eauto. }
  rewrite (reify_ref _ _ _ _ Ho Hs).
  rewrite (reify_ref n h' l o); [|by rewrite Hag|].
  - do 2 f_equal. apply map_eq; intros k. rewrite !lookup_omap.
    destruct (oprops o !! k) as [x|] eqn:Hk; simpl; [|done]. by eapply IH.
  - intros k x Hk. rewrite (IH k x Hk). by eapply Hs.
Qed.

(** Two objects of the same kind with the same property values stand for the
    same tree. *)
Lemma reify_same_props h h' C n l l' kd P :
  h !! l = Some (Obj kd P) → h' !! l' = Some (Obj kd P) →
  (∀ k x, P !! k = Some x → covered h C n x) →
  (∀ l, l ∈ C → h' !! l = h !! l) →
  ∃ t, reify (S n) h (VRef l) = Some t ∧ reify (S n) h' (VRef l') = Some t.
Proof.
  intros Hl Hl' Hch Hag.
  assert (∀ k x, P !! k = Some x → is_Some (reify n h x)) as Hs.
  { intros k x Hk. eapply reify_covered; eauto. }
  eexists. split; [by apply (reify_ref _ _ _ _ Hl)|].
  rewrite (reify_ref n h' l' _ Hl'); simpl.
  - do 2 f_equal. apply map_eq; intros k. rewrite !lookup_omap.
    destruct (P !! k) as [x|] eqn:Hk; simpl; [|done]. eapply reify_local; eauto.
  - intros k x Hk. erewrite reify_local; eauto.
Qed.

(** *** More fuel never changes what a value stands for *)

Lemma reify_ref_inv n h l t :
  reify (S n) h (VRef l) = Some t →
  ∃ o, h !! l = Some o ∧
       (∀ k x, oprops o !! k = Some x → is_Some (reify n h x)) ∧
       t = TNode (okind o) (omap (reify n h) (oprops o)).
Proof.
  cbn [reify]. destruct (h !! l) as [o|]; [|done].
  case_bool_decide as Hall; [|done]. intros [= <-]. exists o. split_and!; [done| |done].
  intros k x Hk. by apply (Hall k x).
Qed.

Lemma reify_mono n : ∀ h v t, reify n h v = Some t → reify (S n) h v = Some t.
Proof.
  induction n as [|n IH]; intros h v t Hv.
  - destruct v; simpl in *; congruence.
  - destruct v as [| | | | |l]; try (simpl in *; congruence).
    apply reify_ref_inv in Hv as (o & Ho & Hall & ->).
    rewrite (reify_ref (S n) h l o Ho).
    + do 2 f_equal. apply map_eq; intros k. rewrite !lookup_omap.
      destruct (oprops o !! k) as [x|] eqn:Hk; simpl; [|done].
      destruct (Hall k x Hk) as [tx Htx]. rewrite Htx. by apply IH.
    + intros k x Hk. destruct (Hall k x Hk) as [tx Htx]. exists tx. by apply IH.
Qed.

Lemma reify_le n n' h v t :
  (n ≤ n')%nat → reify n h v = Some t → reify n' h v = Some t.
Proof. induction 1; [done|]. intros Hv. by apply reify_mono, IHle. Qed.

Lemma stands_for_unique h v t t' : stands_for h v t → stands_for h v t' → t = t'.
Proof.
  intros [n Hn] [n' Hn'].
  apply (reify_le n (n `max` n')) in Hn; [|lia].
  apply (reify_le n' (n `max` n')) in Hn'; [|lia]. congruence.
Qed.

Lemma deep_equal_stands_for h1 v1 h2 v2 t1 t2 :
  deep_equal h1 v1 h2 v2 → stands_for h1 v1 t1 → stands_for h2 v2 t2 → t1 = t2.
Proof.
  intros (n1 & n2 & t & H1 & H2) Ht1 Ht2.
  rewrite <- (stands_for_unique h1 v1 t t1), <- (stands_for_unique h2 v2 t t2);
    [done|by exists n2|done|by exists n1|done].
Qed.

Lemma stands_for_covered h C n v t :
  covered h C n v → stands_for h v t → reify n h v = Some t.
Proof.
  intros Hc Ht. destruct (reify_covered _ _ _ _ Hc) as [t' Ht'].
  rewrite Ht'. f_equal. eapply stands_for_unique; [by exists n|done].
Qed.

Lemma stands_for_local h h' C n v t :
  covered h C n v → (∀ l, l ∈ C → h' !! l = h !! l) →
  stands_for h v t → stands_for h' v t.
Proof.
  intros Hc Hag Ht. exists n. rewrite (reify_local _ _ _ _ _ Hc Hag).
  by eapply stands_for_covered.
Qed.

Lemma stands_for_prim h v t : isObject v = false → stands_for h v t → isNode t = false.
Proof. intros Hv [n Hn]. destruct v, n; simpl in *; try discriminate; by injection Hn as <-. Qed.

Lemma stands_for_ref h l t : stands_for h (VRef l) t → isNode t = true.
Proof.
  intros [[|n] Hn]; [done|]. by apply reify_ref_inv in Hn as (o & _ & _ & ->).
Qed.

Lemma stands_for_ref_inv h l o t :
  h !! l = Some o → stands_for h (VRef l) t →
  ∃ pt, t = TNode (okind o) pt ∧ dom pt = dom (oprops o) ∧
        ∀ k x tx, oprops o !! k = Some x → pt !! k = Some tx → stands_for h x tx.
Proof.
  intros Ho [[|n] Hn]; [done|]. apply reify_ref_inv in Hn as (o' & Ho' & Hall & ->).
  assert (o' = o) as -> by congruence.
  exists (omap (reify n h) (oprops o)). split_and!; [done| |].
  - apply set_eq; intros k. rewrite !elem_of_dom, lookup_omap.
    destruct (oprops o !! k) as [x|] eqn:Hk; simpl.
    + split; [eauto|]. intros _. by eapply Hall.
    + split; intros [? ?]; done.
  - intros k x tx Hk. rewrite lookup_omap, Hk. simpl. intros Hx. by exists n.
Qed.

Lemma stands_for_ref_intro h l o pt n :
  h !! l = Some o →
  (∀ k x, oprops o !! k = Some x → ∃ tx, pt !! k = Some tx ∧ reify n h x = Some tx) →
  (∀ k, oprops o !! k = None → pt !! k = None) →
  stands_for h (VRef l) (TNode (okind o) pt).
Proof.
  intros Ho Hch Hnone. exists (S n). rewrite (reify_ref _ _ _ _ Ho).
  - do 2 f_equal. apply map_eq; intros k. rewrite lookup_omap.
    destruct (oprops o !! k) as [x|] eqn:Hk; simpl.
    + by destruct (Hch k x Hk) as (tx & -> & ->).
    + by rewrite Hnone.
  - intros k x Hk. destruct (Hch k x Hk) as (tx & _ & ->). eauto.
Qed.

(** *** [assignDeep] on a tree-shaped target and a source disjoint from it *)

Section tree_merge.
Variable n : nat.

(** The recursive calls, one level down. *)
Hypothesis IHn : ∀ h F G m t s,
  tree_shaped h F m t → covered h G n s → F ## G →
  isObject t = true → isObject s = true →
  ∃ h', assignDeep n h t s = Some (h', t) ∧
        (∀ l, l ∉ F → h' !! l = h !! l) ∧
        merged h' (F ∪ G) n t s ∧
        covered h' (F ∪ G) (m `max` n) t ∧
        (∀ tt ts, stands_for h t tt → stands_for h s ts →
                  stands_for h' t (deepAssign tt ts)).

Lemma assign_loop_tree m G (Fc : string → gset loc) lt ls kd os ks : ∀ h P,
  NoDup ks →
  h !! lt = Some (Obj kd P) → h !! ls = Some os →
  ls ∈ G → lt ∉ G → (∀ k, lt ∉ Fc k) → (∀ k, Fc k ## G) →
  (∀ k1 k2, k1 ≠ k2 → Fc k1 ## Fc k2) →
  (∀ k, k ∈ ks → is_Some (oprops os !! k)) →
  (∀ k tv, k ∈ ks → P !! k = Some tv → tree_shaped h (Fc k) m tv) →
  (∀ k sv, oprops os !! k = Some sv → covered h G n sv) →
  ∃ h' P',
    assign_loop (deepCallback n) (VRef lt) (VRef ls) ks h = Some h' ∧
    h' !! lt = Some (Obj kd P') ∧
    overlaid_on ks P (oprops os) P' ∧
    (∀ l, l ≠ lt → (∀ k, k ∈ ks → l ∉ Fc k) → h' !! l = h !! l) ∧
    (∀ k tv sv, k ∈ ks → P !! k = Some tv → oprops os !! k = Some sv →
                isObject tv && isObject sv = true →
                merged h' (Fc k ∪ G) n tv sv ∧
                covered h' (Fc k ∪ G) (m `max` n) tv ∧
                (∀ tt ts, stands_for h tv tt → stands_for h sv ts →
                          stands_for h' tv (deepAssign tt ts))).
Proof.
  intros h P Hnd Hlt Hls HlsG HltG HltF HFG Hdisj Hks Htree Hcov.
  revert h P Hnd Hlt Hls Hks Htree Hcov.
  induction ks as [|k ks IHks]; intros h P Hnd Hlt Hls Hks Htree Hcov.
  { exists h, P. split_and!; [done|done|apply overlaid_on_nil|done|].
    intros k tv sv Hk. by apply not_elem_of_nil in Hk. }
  apply NoDup_cons in Hnd as [Hk Hnd].
  destruct (Hks k) as [sv Hsv]; [by left|].
  assert (lt ≠ ls) as Hne by (intros ->; done).
  cbn [assign_loop].
  rewrite (getProp_ref _ _ _ _ Hlt), (getProp_ref _ _ _ _ Hls), Hsv. simpl.
  destruct (isObject (default VUndefined (P !! k)) && isObject sv) eqn:Hb.
  - rewrite (deepCallback_rec _ _ _ _ Hb).
    apply andb_prop in Hb as Hb'. destruct Hb' as [Hb1 Hb2].
    apply isObject_default_Some in Hb1 as [ltk Hl]. rewrite Hl in Hb |- *. simpl.
    destruct (IHn h (Fc k) G m (VRef ltk) sv) as (h1 & Hrun1 & Hfr1 & Hm1 & Hc1 & Hsf1);
      [eapply Htree; [by left|done]|by eapply Hcov|done|done|done|].
    rewrite Hrun1.
    assert (h1 !! lt = Some (Obj kd P)) as Hlt1 by (rewrite Hfr1; done).
    assert (h1 !! ls = Some os) as Hls1.
    { rewrite Hfr1; [done|]. pose proof (HFG k). set_solver. }
    rewrite (setProp_same _ _ (Obj kd P) _ _ Hlt1 Hl).
    assert (∀ j, j ≠ k → ∀ l, l ∈ Fc j → h1 !! l = h !! l) as HagF.
    { intros j Hj l Hl'. apply Hfr1. pose proof (Hdisj j k). set_solver. }
    assert (∀ l, l ∈ G → h1 !! l = h !! l) as HagG.
    { intros l Hl'. apply Hfr1. pose proof (HFG k). set_solver. }
    destruct (IHks h1 P) as (h' & P' & Hrun & Hlt' & HP' & Hfr & Hch); try done.
    { intros; apply Hks; by right. }
    { intros j tv Hj Htv. assert (j ≠ k) by (intros ->; done).
      eapply tree_local; [eapply Htree; [by right|done]|]. by apply HagF. }
    { intros j sv' Hsv'. eapply covered_local; [by eapply Hcov|done]. }
    exists h', P'. split_and!; [done|done| | |].
    + eapply overlaid_on_cons; [done| |by rewrite insert_id].
      by rewrite Hl, Hsv; simpl; rewrite Hb2.
    + intros l Hl1 Hl2. rewrite Hfr; [|done|intros j Hj; apply Hl2; by right].
      apply Hfr1, Hl2. by left.
    + intros j tv sv' Hj Htv Hsv' Hb'. apply elem_of_cons in Hj as [->|Hj].
      * assert (tv = VRef ltk) as -> by congruence.
        assert (sv' = sv) as -> by congruence.
        assert (∀ l, l ∈ Fc k ∪ G → h' !! l = h1 !! l) as Hag.
        { intros l Hl'. apply Hfr.
          - intros ->. pose proof (HltF k). set_solver.
          - intros j Hj Hlj. assert (j ≠ k) by (intros ->; done).
            pose proof (Hdisj j k). pose proof (HFG j). set_solver. }
        split_and!; [by eapply merged_local|by eapply covered_local|].
        intros tt ts Htt Hts. eapply stands_for_local; [exact Hc1|done|]. by apply Hsf1.
      * assert (j ≠ k) by (intros ->; done).
        destruct (Hch j tv sv' Hj Htv Hsv' Hb') as (Hm & Hc & Hsf).
        split_and!; [done|done|]. intros tt ts Htt Hts. apply Hsf.
        -- eapply stands_for_local; [|by apply HagF|done].
           apply tree_covered. eapply Htree; [by right|done].
        -- eapply stands_for_local; [by eapply Hcov|done|done].
  - rewrite (deepCallback_leaf _ _ _ _ Hb).
    rewrite (setProp_ref _ _ _ _ _ Hlt). simpl.
    set (h1 := <[lt := Obj kd (<[k := sv]> P)]> h).
    assert (∀ l, l ≠ lt → h1 !! l = h !! l) as Hfr1.
    { intros l Hl'. unfold h1. by rewrite lookup_insert_ne. }
    assert (∀ j l, l ∈ Fc j → h1 !! l = h !! l) as HagF.
    { intros j l Hl'. apply Hfr1. intros ->. by apply (HltF j). }
    assert (∀ l, l ∈ G → h1 !! l = h !! l) as HagG.
    { intros l Hl'. apply Hfr1. by intros ->. }
    destruct (IHks h1 (<[k := sv]> P)) as (h' & P' & Hrun & Hlt' & HP' & Hfr & Hch);
      try done.
    { unfold h1. by rewrite lookup_insert_eq. }
    { by rewrite Hfr1. }
    { intros; apply Hks; by right. }
    { intros j tv Hj Htv. assert (j ≠ k) by (intros ->; done).
      rewrite lookup_insert_ne in Htv by done.
      eapply tree_local; [eapply Htree; [by right|done]|]. by apply HagF. }
    { intros j sv' Hsv'. eapply covered_local; [by eapply Hcov|done]. }
    exists h', P'. split_and!; [done|done| | |].
    + eapply overlaid_on_cons; [done| |done]. rewrite Hsv. simpl. by rewrite Hb.
    + intros l Hl1 Hl2. rewrite Hfr; [|done|intros j Hj; apply Hl2; by right].
      by apply Hfr1.
    + intros j tv sv' Hj Htv Hsv' Hb'. apply elem_of_cons in Hj as [->|Hj].
      * exfalso. assert (sv' = sv) as -> by congruence.
        rewrite Htv in Hb. simpl in Hb. congruence.
      * assert (j ≠ k) by (intros ->; done).
        destruct (Hch j tv sv') as (Hm & Hc & Hsf); [done| |done|done|].
        { by rewrite lookup_insert_ne. }
        split_and!; [done|done|]. intros tt ts Htt Hts. apply Hsf.
        -- eapply stands_for_local; [|by apply HagF|done].
           apply tree_covered. eapply Htree; [by right|done].
        -- eapply stands_for_local; [by eapply Hcov|done|done].
Qed.
End tree_merge.

Lemma dom_lookup_Some {A B} (m1 : gmap string A) (m2 : gmap string B) k x :
  dom m2 = dom m1 → m1 !! k = Some x → ∃ y, m2 !! k = Some y.
Proof.
  intros Hd Hk. apply (elem_of_dom m2). rewrite Hd. apply elem_of_dom. eauto.
Qed.

Lemma dom_lookup_None {A B} (m1 : gmap string A) (m2 : gmap string B) k :
  dom m2 = dom m1 → m1 !! k = None → m2 !! k = None.
Proof.
  intros Hd Hk. apply (not_elem_of_dom m2). rewrite Hd. by apply not_elem_of_dom.
Qed.

Lemma assignDeep_tree n : ∀ h F G m t s,
  tree_shaped h F m t → covered h G n s → F ## G →
  isObject t = true → isObject s = true →
  ∃ h', assignDeep n h t s = Some (h', t) ∧
        (∀ l, l ∉ F → h' !! l = h !! l) ∧
        merged h' (F ∪ G) n t s ∧
        covered h' (F ∪ G) (m `max` n) t ∧
        (∀ tt ts, stands_for h t tt → stands_for h s ts →
                  stands_for h' t (deepAssign tt ts)) ∧
        (∀ lt ot, t = VRef lt → h !! lt = Some ot →
           h' !! lt = Some (Obj (okind ot) (overlay (oprops ot) (propsOf h s)))).
Proof.
  induction n as [|n IH]; intros h F G m t s Ht Hs HFG Hto Hso.
  { inversion Hs; subst; congruence. }
  inversion Hs as [|n' ls os HlsG Hls Hcov]; subst; [congruence|].
  inversion Ht as [|F' m' lt ot Fc HltF Hlt Htree Hsub Hdisj]; subst; [congruence|].
  assert (lt ∉ G) as HltG by set_solver.
  assert (∀ k, lt ∉ Fc k) as HltFc by (intros k; pose proof (Hsub k); set_solver).
  assert (∀ k, Fc k ## G) as HFcG by (intros k; pose proof (Hsub k); set_solver).
  destruct (assign_loop_tree n) with (m := m') (G := G) (Fc := Fc) (lt := lt)
    (ls := ls) (kd := okind ot) (os := os) (ks := keys h (VRef ls)) (h := h)
    (P := oprops ot)
    as (h' & P' & Hrun & Hlt' & HP' & Hfr & Hch); try done.
  { intros h0 F0 G0 m0 t0 s0 H1 H2 H3 H4 H5.
    destruct (IH h0 F0 G0 m0 t0 s0 H1 H2 H3 H4 H5) as (h1 & ? & ? & ? & ? & ? & _).
    by exists h1. }
  { apply keys_NoDup. }
  { by destruct ot. }
  { intros k Hk. by eapply elem_of_keys. }
  { intros k tv _ Htv. by eapply Htree. }
  apply overlaid_on_all in HP'; [|intros k; by apply keys_spec]. subst P'.
  assert (∀ l, l ∈ G → h' !! l = h !! l) as HagG.
  { intros l Hl. apply Hfr; [by intros ->|]. intros k _. pose proof (HFcG k). set_solver. }
  assert (∀ k sv, oprops os !! k = Some sv → k ∈ keys h (VRef ls)) as Hkeys.
  { intros k sv Hsv. eapply keys_spec; eauto. }
  (* the children of the target after the loop *)
  assert (∀ k x, oprops ot !! k = Some x → oprops os !! k = None →
                 ∀ l, l ∈ Fc k → h' !! l = h !! l) as HagFc.
  { intros k x Hx Hsv l Hl. apply Hfr; [intros ->; by apply (HltFc k)|].
    intros j Hj Hlj. assert (j ≠ k) as Hjk.
    { intros ->. apply (keys_spec _ _ _ _ Hls) in Hj as [? Hj]. congruence. }
    pose proof (Hdisj j k Hjk). set_solver. }
  assert (∀ k v, overlay (oprops ot) (oprops os) !! k = Some v →
                 covered h' (F ∪ G) (m' `max` n) v) as Hcch.
  { intros k v Hv.
    rewrite lookup_overlay in Hv. destruct (oprops os !! k) as [sv|] eqn:Hsv; simpl in Hv.
    - destruct (isObject (default VUndefined (oprops ot !! k)) && isObject sv) eqn:Hb0.
      + destruct (Hch k v sv) as (_ & Hc & _); try done; [by eapply Hkeys|..].
        { apply andb_prop in Hb0 as [Hb1 Hb2]. rewrite Hv in Hb1. simpl in Hb1.
          by rewrite Hb1, Hb2. }
        eapply covered_mono; [done| |done]. pose proof (Hsub k). set_solver.
      + injection Hv as <-.
        eapply covered_mono; [eapply covered_local; [by eapply Hcov|done]|set_solver|lia].
    - eapply covered_mono;
        [apply tree_covered; eapply tree_local; [by eapply Htree|by eapply HagFc]| |lia].
      pose proof (Hsub k). set_solver. }
  exists h'. split_and!.
  - rewrite assignDeep_unfold. unfold assign. simpl truthy. cbv iota. by rewrite Hrun.
  - intros l Hl. apply Hfr; [by intros ->|]. intros k _. pose proof (Hsub k). set_solver.
  - eapply merged_ref; [set_solver|set_solver|done|by rewrite HagG|apply overlay_idem|].
    simpl. intros k tv sv Htv Hsv Hb. rewrite lookup_overlay, Hsv in Htv. simpl in Htv.
    destruct (isObject (default VUndefined (oprops ot !! k)) && isObject sv) eqn:Hb0.
    + destruct (Hch k tv sv) as (Hm & _); try done; [by eapply Hkeys|].
      eapply merged_mono_set; [done|]. pose proof (Hsub k). set_solver.
    + injection Htv as <-. apply merged_self; [|by destruct (isObject sv)].
      eapply covered_mono; [eapply covered_local; [by eapply Hcov|done]|set_solver|done].
  - replace (S m' `max` S n) with (S (m' `max` n)) by lia.
    eapply covered_ref; [set_solver|done|]. done.
  - intros tt ts Htt Hts.
    destruct (stands_for_ref_inv _ _ _ _ Hlt Htt) as (pt & -> & Hdt & Hcht).
    destruct (stands_for_ref_inv _ _ _ _ Hls Hts) as (ps & -> & Hds & Hchs).
    cbn [deepAssign].
    eapply (stands_for_ref_intro h' lt (Obj (okind ot) _) _ (m' `max` n)); [done| |].
    + cbn [oprops]. intros k x Hx. rewrite lookup_merge. pose proof (Hcch k x Hx) as Hcx.
      rewrite lookup_overlay in Hx.
      destruct (oprops os !! k) as [sv|] eqn:Hsv; simpl in Hx.
      * destruct (dom_lookup_Some _ ps _ _ Hds Hsv) as [tsv Htsv]. rewrite Htsv.
        pose proof (Hchs _ _ _ Hsv Htsv) as Hsfs.
        destruct (isObject (default VUndefined (oprops ot !! k)) && isObject sv) eqn:Hb0.
        -- destruct (dom_lookup_Some _ pt _ _ Hdt Hx) as [ttv Httv]. rewrite Httv. simpl.
           pose proof (Hcht _ _ _ Hx Httv) as Hsft.
           apply andb_prop in Hb0 as Hb0'. destruct Hb0' as [Hb1 Hb2].
           rewrite Hx in Hb1. simpl in Hb1.
           destruct x as [| | | | |lx]; try discriminate.
           destruct sv as [| | | | |lsv]; try discriminate.
           rewrite (stands_for_ref _ _ _ Hsft), (stands_for_ref _ _ _ Hsfs). simpl.
           eexists. split; [done|]. eapply stands_for_covered; [done|].
           destruct (Hch k (VRef lx) (VRef lsv)) as (_ & _ & Hsf); try done.
           { by eapply Hkeys. }
           by apply Hsf.
        -- injection Hx as <-.
           assert (stands_for h' sv tsv) as Hsfs'.
           { eapply stands_for_local; [by eapply Hcov|done|done]. }
           exists tsv. split; [|by eapply stands_for_covered].
           destruct (oprops ot !! k) as [tv0|] eqn:Htv0.
           ++ destruct (dom_lookup_Some _ pt _ _ Hdt Htv0) as [ttv0 Httv0].
              rewrite Httv0. simpl. simpl in Hb0.
              pose proof (Hcht _ _ _ Htv0 Httv0) as Hsft.
              apply andb_false_iff in Hb0 as [Hb0|Hb0].
              ** by rewrite (stands_for_prim _ _ _ Hb0 Hsft).
              ** rewrite (stands_for_prim _ _ _ Hb0 Hsfs). by rewrite andb_false_r.
           ++ by rewrite (dom_lookup_None _ pt _ Hdt Htv0).
      * rewrite (dom_lookup_None _ ps _ Hds Hsv).
        destruct (dom_lookup_Some _ pt _ _ Hdt Hx) as [ttv Httv]. rewrite Httv. simpl.
        exists ttv. split; [done|]. eapply stands_for_covered; [done|].
        eapply stands_for_local; [|by eapply HagFc|by eapply Hcht].
        apply tree_covered. by eapply Htree.
    + cbn [oprops]. intros k Hk. rewrite lookup_merge. rewrite lookup_overlay in Hk.
      destruct (oprops os !! k) as [sv|] eqn:Hsv; simpl in Hk.
      * destruct (isObject (default VUndefined (oprops ot !! k)) && isObject sv) eqn:Hb0;
          [|done]. by rewrite Hk in Hb0.
      * by rewrite (dom_lookup_None _ ps _ Hds Hsv), (dom_lookup_None _ pt _ Hdt Hk).
  - intros lt0 ot0 [= <-] Hot0. assert (ot0 = ot) as -> by congruence.
    rewrite Hlt'. simpl. by rewrite Hls.
Qed.

Lemma merged_dom h C n t s : merged h C n t s → merged h (C ∩ dom h) n t s.
Proof.
  induction 1 as [n lt ls ot os Hlt Hls Hot Hos Hov Hch IH].
  eapply merged_ref; [| |done|done|done|done];
    (apply elem_of_intersection; split; [done|]; apply elem_of_dom; eauto).
Qed.

(** *** More fuel never changes the result of a call *)

Lemma assign_loop_mono cb cb' t s ks :
  (∀ h tp sp r, cb h tp sp = Some r → cb' h tp sp = Some r) →
  ∀ h h', assign_loop cb t s ks h = Some h' → assign_loop cb' t s ks h = Some h'.
Proof.
  intros Hcb. induction ks as [|k ks IH]; intros h h' Hrun; [done|].
  cbn [assign_loop] in *.
  destruct (cb h (getProp h t k) (getProp h s k)) as [[h1 r]|] eqn:Hk; [|done].
  rewrite (Hcb _ _ _ _ Hk). by apply IH.
Qed.

Lemma assignDeep_fuel_S n : ∀ h t s x,
  assignDeep n h t s = Some x → assignDeep (S n) h t s = Some x.
Proof.
  induction n as [|n IH]; intros h t s x Hrun; [done|].
  rewrite assignDeep_unfold in *. unfold assign in *.
  destruct (truthy t); [|done].
  destruct (assign_loop (deepCallback n) t s (keys h s) h) as [h'|] eqn:Hloop; [|done].
  erewrite assign_loop_mono; [done| |done].
  intros h0 tp sp r. unfold deepCallback.
  destruct (isObject tp && isObject sp); [apply IH|done].
Qed.

Lemma assignDeep_fuel_le n n' h t s x :
  (n ≤ n')%nat → assignDeep n h t s = Some x → assignDeep n' h t s = Some x.
Proof. induction 1; [done|]. intros Hrun. by apply assignDeep_fuel_S, IHle. Qed.

Lemma getConfig_fuel_le n n' configs h name options x :
  (n ≤ n')%nat →
  getConfig n configs h name options = Some x →
  getConfig n' configs h name options = Some x.
Proof.
  intros Hle. unfold getConfig.
  destruct (isUndefined (registered configs name) && isUndefined options); [done|].
  destruct (cloneOrEmpty h (registered configs name)) as [h1 target].
  by apply assignDeep_fuel_le.
Qed.

Lemma stands_for_copy h h' C n c c' kd P t :
  h !! c = Some (Obj kd P) → h' !! c' = Some (Obj kd P) →
  (∀ k x, P !! k = Some x → covered h C n x) →
  (∀ l, l ∈ C → h' !! l = h !! l) →
  stands_for h (VRef c) t → stands_for h' (VRef c') t.
Proof.
  intros Hc Hc' Hch Hag Ht.
  destruct (reify_same_props h h' C n c c' kd P Hc Hc' Hch Hag) as (t0 & Ht0 & Ht0').
  rewrite (stands_for_unique h (VRef c) t t0); [by exists (S n)|done|by exists (S n)].
Qed.

Lemma deepAssign_prim_source tt ts : isNode ts = false → deepAssign tt ts = tt.
Proof. by destruct tt, ts. Qed.

(** *** The calls [getConfig] makes *)

Lemma assignDeep_prim_source n h t s :
  isObject s = false → assignDeep (S n) h t s = Some (h, t).
Proof.
  intros Hs. rewrite assignDeep_unfold. unfold assign.
  replace (keys h s) with (@nil string) by (by destruct s).
  by destruct (truthy t).
Qed.

Lemma assign_loop_prim_target n h t s ks :
  isObject t = false →
  assign_loop (deepCallback n) t s ks h = Some h.
Proof.
  intros Ht. induction ks as [|k ks IH]; [done|]. cbn [assign_loop].
  replace (getProp h t k) with VUndefined by (by destruct t).
  rewrite deepCallback_leaf by done.
  replace (setProp h t k (getProp h s k)) with h by (by destruct t). done.
Qed.

Lemma assignDeep_prim_target n h t s :
  isObject t = false → assignDeep (S n) h t s = Some (h, t).
Proof.
  intros Ht. rewrite assignDeep_unfold. unfold assign.
  destruct (truthy t); [|done]. by rewrite assign_loop_prim_target.
Qed.

(** The first call on a freshly allocated target whose property values are
    disjoint trees. *)
Lemma assignDeep_fresh_target h kd P (Fc : string → gset loc) F' G m n ls os :
  (∀ k v, P !! k = Some v → tree_shaped h (Fc k) m v) →
  (∀ k, Fc k ⊆ F') → (∀ k1 k2, k1 ≠ k2 → Fc k1 ## Fc k2) →
  F' ⊆ dom h → G ⊆ dom h → F' ## G →
  covered h G (S n) (VRef ls) → h !! ls = Some os →
  let c := fresh (dom h) in
  ∃ h1, assignDeep (S n) (<[c := Obj kd P]> h) (VRef c) (VRef ls) = Some (h1, VRef c) ∧
        (∀ l, l ≠ c → l ∉ F' → h1 !! l = h !! l) ∧
        h1 !! c = Some (Obj kd (overlay P (oprops os))) ∧
        (∀ tt ts, stands_for (<[c := Obj kd P]> h) (VRef c) tt →
                  stands_for h (VRef ls) ts →
                  stands_for h1 (VRef c) (deepAssign tt ts)) ∧
        ∃ C N, covered h1 C (S N) (VRef c) ∧ C ⊆ dom h1 ∧
               (∀ k tv sv, P !! k = Some tv → oprops os !! k = Some sv →
                           isObject tv && isObject sv = true → merged h1 C n tv sv).
Proof.
  intros Hch Hsub Hdisj HF' HG HFG Hcov Hls c.
  assert (c ∉ dom h) as Hc by apply is_fresh.
  set (h0 := <[c := Obj kd P]> h).
  assert (∀ l, l ≠ c → h0 !! l = h !! l) as Hh0.
  { intros l Hl. unfold h0. by rewrite lookup_insert_ne. }
  destruct (assignDeep_tree (S n) h0 ({[c]} ∪ F') G (S m) (VRef c) (VRef ls))
    as (h1 & Hrun & Hfr & Hm & Hc1 & Hsf & Hprops); try done.
  { eapply (tree_ref _ _ _ _ (Obj kd P) Fc); [set_solver|apply lookup_insert_eq| | |done].
    - intros k v Hk. eapply tree_local; [by eapply Hch|].
      intros l Hl. apply Hh0. intros ->. pose proof (Hsub k). set_solver.
    - intros k. pose proof (Hsub k). set_solver. }
  { eapply covered_local; [done|]. intros l Hl. apply Hh0. intros ->. set_solver. }
  { set_solver. }
  assert (h0 !! ls = Some os) as Hls0.
  { rewrite Hh0; [done|]. intros ->. apply Hc. apply elem_of_dom; eauto. }
  specialize (Hprops c (Obj kd P) eq_refl (lookup_insert_eq _ _ _)).
  simpl in Hprops. rewrite Hls0 in Hprops.
  exists h1. split_and!; [done| |done| |].
  { intros l Hl1 Hl2. rewrite Hfr by set_solver. by apply Hh0. }
  { intros tt ts Htt Hts. apply Hsf; [done|].
    eapply stands_for_local; [exact Hcov| |done].
    intros l Hl. apply Hh0. intros ->. set_solver. }
  apply covered_dom in Hc1. apply merged_dom in Hm.
  exists (({[c]} ∪ F' ∪ G) ∩ dom h1), (m `max` n).
  split_and!; [done|set_solver|].
  intros k tv sv Htv Hsv Hb. inversion Hm as [? ? ? ot' os' _ _ Hot' Hos' _ Hmch]; subst.
  rewrite Hprops in Hot'. injection Hot' as <-.
  assert (h1 !! ls = Some os) as Hls1.
  { rewrite Hfr; [done|]. intros Hin. apply elem_of_union in Hin as [Hin|Hin].
    - apply elem_of_singleton in Hin as ->. apply Hc, elem_of_dom; eauto.
    - inversion Hcov; subst; [done|]. set_solver. }
  rewrite Hls1 in Hos'. injection Hos' as <-.
  eapply Hmch; [|done|done]. simpl. rewrite lookup_overlay, Htv, Hsv. simpl.
  apply andb_prop in Hb as [-> ->]. done.
Qed.

(** The second call: a fresh clone over children that the first call has
    merged already. *)
Lemma assignDeep_fresh_again h1 C kd P n ls os :
  h1 !! ls = Some os → C ⊆ dom h1 →
  (∀ k tv sv, P !! k = Some tv → oprops os !! k = Some sv →
              isObject tv && isObject sv = true → merged h1 C n tv sv) →
  let c := fresh (dom h1) in
  assignDeep (S n) (<[c := Obj kd P]> h1) (VRef c) (VRef ls)
    = Some (<[c := Obj kd (overlay P (oprops os))]> h1, VRef c).
Proof.
  intros Hls HC Hch c.
  assert (c ∉ dom h1) as Hc by apply is_fresh.
  assert (c ≠ ls) as Hne by (intros ->; apply Hc, elem_of_dom; eauto).
  set (h0 := <[c := Obj kd P]> h1).
  assert (h0 !! ls = Some os) as Hls0 by (unfold h0; by rewrite lookup_insert_ne).
  destruct (assign_loop_fresh n C c ls kd os (keys h0 (VRef ls)) h0 P)
    as (P' & Hrun & HP'); try done.
  { apply keys_NoDup. }
  { apply lookup_insert_eq. }
  { set_solver. }
  { intros k Hk. by eapply elem_of_keys. }
  { intros k tv sv _ Htv Hsv Hb. eapply merged_local; [by eapply Hch|].
    intros l Hl. unfold h0. rewrite lookup_insert_ne; [done|]. intros ->. set_solver. }
  apply overlaid_on_all in HP'; [|intros k; by apply keys_spec]. subst P'.
  rewrite assignDeep_unfold. unfold assign. simpl truthy. cbv iota.
  rewrite Hrun. unfold h0. by rewrite insert_insert_eq.
Qed.

Lemma cloneOrEmpty_object h c kd P :
  h !! c = Some (Obj kd P) → kd ≠ KFunction →
  cloneOrEmpty h (VRef c) = (<[fresh (dom h) := Obj kd P]> h, VRef (fresh (dom h))).
Proof. intros Hc Hk. unfold cloneOrEmpty, clone. rewrite Hc. by destruct kd. Qed.

Lemma cloneOrEmpty_function h c P :
  h !! c = Some (Obj KFunction P) → cloneOrEmpty h (VRef c) = (h, VRef c).
Proof. intros Hc. unfold cloneOrEmpty, clone. by rewrite Hc. Qed.

Lemma cloneOrEmpty_falsy h v :
  truthy v = false →
  cloneOrEmpty h v = (<[fresh (dom h) := Obj KObject ∅]> h, VRef (fresh (dom h))).
Proof. intros Hv. destruct v; try done; unfold cloneOrEmpty, clone; by rewrite Hv. Qed.

Lemma cloneOrEmpty_truthy h v :
  isObject v = false → truthy v = true → cloneOrEmpty h v = (h, v).
Proof. intros Ho Hv. destruct v; try done; unfold cloneOrEmpty, clone; by rewrite Hv. Qed.

Lemma propsOf_prim h v : isObject v = false → propsOf h v = ∅.
Proof. by destruct v. Qed.

(** Two calls in a row on fresh targets with the same property values. *)
Lemma fresh_target_twice h kd P (Fc : string → gset loc) F' G m n options :
  (∀ k v, P !! k = Some v → tree_shaped h (Fc k) m v) →
  (∀ k, Fc k ⊆ F') → (∀ k1 k2, k1 ≠ k2 → Fc k1 ## Fc k2) →
  F' ⊆ dom h → G ⊆ dom h → F' ## G →
  covered h G n options →
  let c1 := fresh (dom h) in
  ∃ h1,
    assignDeep (S n) (<[c1 := Obj kd P]> h) (VRef c1) options = Some (h1, VRef c1) ∧
    (∀ l, l ≠ c1 → l ∉ F' → h1 !! l = h !! l) ∧
    h1 !! c1 = Some (Obj kd (overlay P (propsOf h options))) ∧
    (∀ tt to, stands_for (<[c1 := Obj kd P]> h) (VRef c1) tt →
              stands_for h options to →
              stands_for h1 (VRef c1) (deepAssign tt to)) ∧
    let c2 := fresh (dom h1) in
    let h2 := <[c2 := Obj kd (overlay P (propsOf h options))]> h1 in
    assignDeep (S n) (<[c2 := Obj kd P]> h1) (VRef c2) options = Some (h2, VRef c2) ∧
    ∃ N t, reify N h1 (VRef c1) = Some t ∧ reify N h2 (VRef c1) = Some t ∧
           reify N h2 (VRef c2) = Some t.
Proof.
  intros Hch Hsub Hdisj HF' HG HFG Hcov c1.
  assert (c1 ∉ dom h) as Hc1 by apply is_fresh.
  destruct (isObject options) eqn:Hobj.
  - destruct options as [| | | | |ls]; try discriminate.
    assert (covered h G (S n) (VRef ls)) as Hcov'.
    { eapply covered_mono; [done|done|lia]. }
    inversion Hcov' as [|? ? os HlsG Hls Hcovch]; subst; [done|].
    destruct (assignDeep_fresh_target h kd P Fc F' G m n ls os)
      as (h1 & Hrun & Hfr & Hp & Hsf & C & N & Hc & HC & Hm); try done.
    fold c1 in Hrun, Hfr, Hp, Hsf, Hc.
    assert (h1 !! ls = Some os) as Hls1.
    { rewrite Hfr; [done| |set_solver]. intros ->. set_solver. }
    exists h1. simpl propsOf. rewrite Hls.
    split_and!; [done|done|done|done|]. intros c2 h2.
    assert (c2 ∉ dom h1) as Hc2 by apply is_fresh.
    split; [by eapply assignDeep_fresh_again|].
    assert (∀ l, l ∈ C → h2 !! l = h1 !! l) as Hag.
    { intros l Hl. unfold h2. rewrite lookup_insert_ne; [done|]. intros <-. set_solver. }
    inversion Hc as [|? ? o1 Hc1C Ho1 Hcch]; subst; [done|].
    rewrite Hp in Ho1. injection Ho1 as <-. simpl in Hcch.
    destruct (reify_same_props h1 h2 C N c1 c2 kd (overlay P (oprops os)))
      as (t & Ht1 & Ht2); try done.
    { unfold h2. apply lookup_insert_eq. }
    exists (S N), t. split_and!; [done| |done].
    rewrite <- Ht1. eapply reify_local; eauto.
  - rewrite (propsOf_prim _ _ Hobj), overlay_empty_r.
    set (h1 := <[c1 := Obj kd P]> h).
    exists h1. split_and!.
    + by apply assignDeep_prim_source.
    + intros l Hl _. unfold h1. by rewrite lookup_insert_ne.
    + apply lookup_insert_eq.
    + intros tt to Htt Hto.
      by rewrite (deepAssign_prim_source _ _ (stands_for_prim _ _ _ Hobj Hto)).
    + intros c2 h2. split; [by apply assignDeep_prim_source|].
      assert (c2 ∉ dom h1) as Hc2 by apply is_fresh.
      assert (∀ l, l ∈ F' → h1 !! l = h !! l) as Hag1.
      { intros l Hl. unfold h1. rewrite lookup_insert_ne; [done|]. intros <-. set_solver. }
      assert (∀ l, l ∈ F' → h2 !! l = h1 !! l) as Hag2.
      { intros l Hl. unfold h2. rewrite lookup_insert_ne; [done|]. intros <-.
        apply Hc2. unfold h1. rewrite dom_insert. set_solver. }
      destruct (reify_same_props h1 h2 F' m c1 c2 kd P) as (t & Ht1 & Ht2); try done.
      { apply lookup_insert_eq. }
      { apply lookup_insert_eq. }
      { intros k x Hk. eapply covered_local; [|done].
        eapply covered_mono; [apply tree_covered; by eapply Hch|by apply Hsub|done]. }
      exists (S m), t. split_and!; [done| |done].
      rewrite <- Ht1. eapply (reify_local h1 h2 ({[c1]} ∪ F')).
      * eapply covered_ref; [set_solver|apply lookup_insert_eq|]. simpl.
        intros k x Hk. eapply (covered_mono _ F'); [|set_solver|done].
        eapply covered_local; [|done].
        eapply covered_mono; [apply tree_covered; by eapply Hch|by apply Hsub|done].
      * intros l Hl. unfold h2. rewrite lookup_insert_ne; [done|]. intros <-.
        apply Hc2. unfold h1. rewrite dom_insert. set_solver.
Qed.




(** Two calls of [getConfig] in a row, the second on the store the first has
    left. *)
Lemma getConfig_twice configs h name options F G m n :
  tree_shaped h F m (registered configs name) →
  covered h G n options → F ## G →
  ∃ h1 r1 h2 r2,
    getConfig (S n) configs h name options = Some (h1, r1) ∧
    getConfig (S n) configs h1 name options = Some (h2, r2) ∧
    (∃ N t, reify N h1 r1 = Some t ∧ reify N h2 r1 = Some t ∧
            reify N h2 r2 = Some t) ∧
    (isObject (registered configs name) = false →
     truthy (registered configs name) = true → r1 = registered configs name) ∧
    (isObject (registered configs name) = true ∨
     truthy (registered configs name) = false →
     isUndefined (registered configs name) && isUndefined options = false →
     (∃ l o, r1 = VRef l ∧ h1 !! l = Some o ∧
             oprops o = overlay (propsOf h (registered configs name))
                                (propsOf h options) ∧
             (l ∉ dom h ∨
              ∃ c P, registered configs name = VRef c ∧
                     h !! c = Some (Obj KFunction P))) ∧
     (∀ tc to, stands_for h (registered configs name) tc →
               stands_for h options to →
               stands_for h1 r1 (deepAssign (cloneOrEmptyTree tc) to))).
Proof.
  intros Ht0 Hc0 HFG0.
  assert (∃ F0 G0, tree_shaped h F0 m (registered configs name) ∧
                   covered h G0 n options ∧ F0 ## G0 ∧
                   F0 ⊆ dom h ∧ G0 ⊆ dom h) as (F0 & G0 & Ht & Hc & HFG & HF & HG).
  { exists (F ∩ dom h), (G ∩ dom h).
    split_and!; [by apply tree_dom|by apply covered_dom|set_solver..]. }
  clear F G Ht0 Hc0 HFG0. rename F0 into F, G0 into G.
  unfold getConfig. remember (registered configs name) as cv eqn:Hcv. clear Hcv.
  destruct (isUndefined cv && isUndefined options) eqn:Hu.
  { exists h, VUndefined, h, VUndefined. split_and!; [done|done| | |].
    - by exists 0, TUndefined.
    - intros H1 H2. destruct cv; done.
    - done. }
  inversion Ht as [? ? ? Hprim|F' m' c oc Fc HcF Hoc Hch Hsub Hdisj]; subst.
  - (* a primitive is registered, or nothing *)
    destruct (truthy cv) eqn:Htr.
    + rewrite (cloneOrEmpty_truthy _ _ Hprim Htr); cbv beta iota zeta.
      rewrite (assignDeep_prim_target _ _ _ _ Hprim).
      exists h, cv, h, cv. rewrite (cloneOrEmpty_truthy _ _ Hprim Htr); cbv beta iota zeta.
      rewrite (assignDeep_prim_target _ _ _ _ Hprim).
      split_and!; [done|done| |done|].
      * destruct (reify_prim 0 h cv Hprim) as [t Ht']. by exists 0, t.
      * intros [?|?]; congruence.
    + rewrite (cloneOrEmpty_falsy _ _ Htr); cbv beta iota zeta.
      destruct (fresh_target_twice h KObject ∅ (λ _, ∅) ∅ G 0 n options)
        as (h1 & Hrun & Hfr & Hp & Hsf & Hrun2 & Hre); try done.
      exists h1, (VRef (fresh (dom h))). rewrite Hrun.
      rewrite (cloneOrEmpty_falsy _ _ Htr); cbv beta iota zeta.
      cbv zeta in Hrun2. rewrite Hrun2.
      do 2 eexists. split_and!; [done|done|done|congruence|].
      intros _ _. split.
      * do 2 eexists. split_and!; [done|done| |left; apply is_fresh]. simpl.
        by rewrite (propsOf_prim _ _ Hprim).
      * intros tc to Htc Hto. apply Hsf; [|done].
        assert (cloneOrEmptyTree tc = TNode KObject ∅) as ->.
        { pose proof (stands_for_prim _ _ _ Hprim Htc). by destruct tc. }
        exists 1. rewrite (reify_ref 0 _ _ (Obj KObject ∅)); [|apply lookup_insert_eq|done].
        simpl. by rewrite omap_empty.
  - (* an object is registered *)
    assert (c ∈ dom h) as Hcdom by (apply elem_of_dom; eauto).
    destruct oc as [kd P]. cbn [okind oprops] in *.
    assert (kd = KFunction ∨ kd ≠ KFunction) as [->|Hkd]
      by (destruct kd; auto; right; discriminate).
    + rewrite (cloneOrEmpty_function _ _ _ Hoc); cbv beta iota zeta.
      destruct (isObject options) eqn:Hobj.
      * assert (covered h G (S n) options) as Hc'.
        { eapply covered_mono; [done|done|lia]. }
        destruct (assignDeep_tree (S n) h F G (S m') (VRef c) options)
          as (h1 & Hrun & Hfr & Hm & Hc1 & Hsf & Hp); try done.
        specialize (Hp c _ eq_refl Hoc). simpl in Hp.
        exists h1, (VRef c), h1, (VRef c). rewrite Hrun.
        rewrite (cloneOrEmpty_function _ _ _ Hp); cbv beta iota zeta.
        rewrite (assignDeep_merged _ _ _ _ _ Hm).
        split_and!; [done|done| |done|].
        { destruct (reify_covered _ _ _ _ Hc1) as [t Ht']. eauto. }
        intros _ _. split.
        -- do 2 eexists. split_and!; [done|done| |right; eauto].
           simpl. by rewrite Hoc.
        -- intros tc to Htc Hto.
           destruct (stands_for_ref_inv _ _ _ _ Hoc Htc) as (pt & -> & _).
           by apply Hsf.
      * rewrite (assignDeep_prim_source _ _ _ _ Hobj).
        exists h, (VRef c), h, (VRef c).
        rewrite (cloneOrEmpty_function _ _ _ Hoc); cbv beta iota zeta.
        rewrite (assignDeep_prim_source _ _ _ _ Hobj).
        split_and!; [done|done| |done|].
        { destruct (reify_covered _ _ _ _ (tree_covered _ _ _ _ Ht)) as [t Ht']. eauto. }
        intros _ _. split.
        -- do 2 eexists. split_and!; [done|done| |right; eauto]. simpl.
           by rewrite Hoc, (propsOf_prim _ _ Hobj), overlay_empty_r.
        -- intros tc to Htc Hto.
           destruct (stands_for_ref_inv _ _ _ _ Hoc Htc) as (pt & -> & _).
           by rewrite (deepAssign_prim_source _ _ (stands_for_prim _ _ _ Hobj Hto)).
    + rewrite (cloneOrEmpty_object _ _ _ _ Hoc Hkd); cbv beta iota zeta.
      destruct (fresh_target_twice h kd P Fc (F ∖ {[c]}) G m' n options)
        as (h1 & Hrun & Hfr & Hp & Hsf & Hrun2 & Hre); try done.
      { set_solver. }
      { set_solver. }
      exists h1, (VRef (fresh (dom h))). rewrite Hrun.
      assert (h1 !! c = Some (Obj kd P)) as Hoc1.
      { rewrite Hfr; [done| |set_solver]. intros ->. by apply (is_fresh (dom h)). }
      rewrite (cloneOrEmpty_object _ _ _ _ Hoc1 Hkd); cbv beta iota zeta.
      cbv zeta in Hrun2. rewrite Hrun2.
      do 2 eexists. split_and!; [done|done|done|done|].
      intros _ _. split.
      * do 2 eexists. split_and!; [done|done| |left; apply is_fresh].
        simpl. by rewrite Hoc.
      * intros tc to Htc Hto.
        destruct (stands_for_ref_inv _ _ _ _ Hoc Htc) as (pt & Heq & _).
        rewrite Heq. cbn [cloneOrEmptyTree]. rewrite <- Heq.
        apply Hsf; [|done].
        eapply (stands_for_copy h _ (F ∖ {[c]}) m' c _ kd P); [done| | | |done].
        -- apply lookup_insert_eq.
        -- intros k x Hk. eapply covered_mono; [apply tree_covered; by eapply Hch| |done].
           apply Hsub.
        -- intros l Hl. rewrite lookup_insert_ne; [done|]. intros <-.
           apply (is_fresh (dom h)). set_solver.
Qed.

(** *** Stores in which a value stands for a tree with one nested object *)

Lemma flat_tree h l o F :
  h !! l = Some o → l ∈ F →
  map_Forall (λ _ v, isObject v = false) (oprops o) →
  tree_shaped h F 1 (VRef l).
Proof.
  intros Ho Hl Hflat. eapply (tree_ref _ _ _ _ o (λ _, ∅)); [done|done| |set_solver|set_solver].
  intros k v Hk. apply tree_prim. by apply (Hflat k v).
Qed.


Lemma TNode_inj k m k' m' : TNode k m = TNode k' m' → k = k' ∧ m = m'.
Proof.
  intros Heq. split.
  - by apply (f_equal (λ t, match t with TNode k _ => k | _ => KObject end)) in Heq.
  - by apply (f_equal (λ t, match t with TNode _ m => m | _ => ∅ end)) in Heq.
Qed.

Lemma stands_for_node_inv h v k pt :
  stands_for h v (TNode k pt) →
  ∃ l o, v = VRef l ∧ h !! l = Some o ∧ okind o = k ∧
         dom (oprops o) = dom pt ∧
         ∀ key x tx, oprops o !! key = Some x → pt !! key = Some tx →
                     stands_for h x tx.
Proof.
  intros Hv. destruct (isObject v) eqn:Hobj.
  - destruct v as [| | | | |l]; try discriminate.
    destruct Hv as [[|n] Hn]; [done|].
    apply reify_ref_inv in Hn as Hn'. destruct Hn' as (o & Ho & _ & Heq).
    destruct (stands_for_ref_inv h l o (TNode k pt) Ho) as (pt' & Heq' & Hd & Hch);
      [by exists (S n)|].
    injection Heq' as -> ->. exists l, o. split_and!; [done|done|done|done|done].
  - by apply (stands_for_prim _ _ _ Hobj) in Hv.
Qed.

Lemma stands_for_leaf h v t : stands_for h v t → isNode t = false → isObject v = false.
Proof.
  intros Hv Ht. destruct v as [| | | | |l]; try done.
  by rewrite (stands_for_ref _ _ _ Hv) in Ht.
Qed.

(** A value that stands for [{key: {...leaves...}}] is a tree of two
    different objects. *)
Lemma two_level_shape h v k1 key k2 p2 :
  stands_for h v (TNode k1 {[ key := TNode k2 p2 ]}) →
  map_Forall (λ _ t, isNode t = false) p2 →
  ∃ c c2, v = VRef c ∧ c ≠ c2 ∧
          stands_for h (VRef c) (TNode k1 {[ key := TNode k2 p2 ]}) ∧
          stands_for h (VRef c2) (TNode k2 p2) ∧
          tree_shaped h {[c; c2]} 2 (VRef c).
Proof.
  intros Hv Hflat.
  destruct (stands_for_node_inv _ _ _ _ Hv) as (c & oc & -> & Hoc & Hk1 & Hd & Hch).
  rewrite dom_singleton_L in Hd.
  assert (is_Some (oprops oc !! key)) as [x Hx].
  { apply elem_of_dom. rewrite Hd. set_solver. }
  pose proof (Hch key x _ Hx (lookup_singleton_eq _ _)) as Hx2.
  destruct (stands_for_node_inv _ _ _ _ Hx2) as (c2 & oc2 & -> & Hoc2 & Hk2 & Hd2 & Hch2).
  assert (c ≠ c2) as Hne.
  { intros <-. pose proof (stands_for_unique _ _ _ _ Hv Hx2) as Heq.
    apply TNode_inj in Heq as [_ Heq].
    assert (p2 !! key = Some (TNode k2 p2)) as Hk
      by (rewrite <- Heq at 1; apply lookup_singleton_eq).
    by apply Hflat in Hk. }
  exists c, c2. split_and!; [done|done|done|done|].
  eapply (tree_ref _ _ _ _ oc (λ k, if decide (k = key) then {[c2]} else ∅)).
  - set_solver.
  - done.
  - intros k y Hy.
    assert (k = key) as ->.
    { apply (elem_of_singleton (C := gset string)). rewrite <- Hd.
      apply elem_of_dom. eauto. }
    assert (y = VRef c2) as -> by congruence. rewrite decide_True by done.
    eapply flat_tree; [done|set_solver|].
    intros k' y' Hy'.
    assert (is_Some (p2 !! k')) as [ty Hty].
    { apply elem_of_dom. rewrite <- Hd2. apply elem_of_dom. eauto. }
    eapply stands_for_leaf; [by eapply Hch2|]. by apply (Hflat k' ty).
  - intros k. case_decide; set_solver.
  - intros k1' k2' Hne'. repeat case_decide; set_solver.
Qed.

(** Two such values whose nested objects stand for different trees share no
    object. *)
Lemma two_level_disjoint h c c2 o o2 k1 key k2 p2 k1' key' k2' p2' :
  stands_for h (VRef c) (TNode k1 {[ key := TNode k2 p2 ]}) →
  stands_for h (VRef c2) (TNode k2 p2) →
  stands_for h (VRef o) (TNode k1' {[ key' := TNode k2' p2' ]}) →
  stands_for h (VRef o2) (TNode k2' p2') →
  map_Forall (λ _ t, isNode t = false) p2 →
  map_Forall (λ _ t, isNode t = false) p2' →
  TNode k2 p2 ≠ TNode k2' p2' →
  ({[c; c2]} : gset positive) ## {[o; o2]}.
Proof.
  intros Hc Hc2 Ho Ho2 Hflat Hflat' Hne.
  assert (c ≠ o).
  { intros <-. pose proof (stands_for_unique _ _ _ _ Hc Ho) as Heq.
    apply TNode_inj in Heq as [_ Heq]. apply (f_equal (λ m, m !! key)) in Heq.
    rewrite lookup_singleton_eq in Heq. symmetry in Heq.
    apply lookup_singleton_Some in Heq as [_ Heq]. congruence. }
  assert (c ≠ o2).
  { intros <-. pose proof (stands_for_unique _ _ _ _ Hc Ho2) as Heq.
    apply TNode_inj in Heq as [_ Heq].
    assert (p2' !! key = Some (TNode k2 p2)) as Hk
      by (rewrite <- Heq; apply lookup_singleton_eq).
    by apply Hflat' in Hk. }
  assert (c2 ≠ o).
  { intros <-. pose proof (stands_for_unique _ _ _ _ Hc2 Ho) as Heq.
    apply TNode_inj in Heq as [_ Heq].
    assert (p2 !! key' = Some (TNode k2' p2')) as Hk
      by (rewrite Heq; apply lookup_singleton_eq).
    by apply Hflat in Hk. }
  assert (c2 ≠ o2).
  { intros <-. apply Hne. by eapply stands_for_unique. }
  set_solver.
Qed.

(** [getConfig] on such a registered config and such options. *)
Lemma getConfig_two_level configs h name options k1 key k2 p2 k1' key' k2' p2' :
  stands_for h (registered configs name) (TNode k1 {[ key := TNode k2 p2 ]}) →
  stands_for h options (TNode k1' {[ key' := TNode k2' p2' ]}) →
  map_Forall (λ _ t, isNode t = false) p2 →
  map_Forall (λ _ t, isNode t = false) p2' →
  TNode k2 p2 ≠ TNode k2' p2' →
  ∃ h' r,
    (∀ fuel, getConfig (3 + fuel) configs h name options = Some (h', r)) ∧
    stands_for h' r (deepAssign (TNode k1 {[ key := TNode k2 p2 ]})
                                (TNode k1' {[ key' := TNode k2' p2' ]})).
Proof.
  intros Hcfg Hopt Hflat Hflat' Hne.
  destruct (two_level_shape _ _ _ _ _ _ Hcfg Hflat)
    as (c & c2 & Hc & Hcc2 & Hsc & Hsc2 & Htc).
  destruct (two_level_shape _ _ _ _ _ _ Hopt Hflat')
    as (o & o2 & -> & Hoo2 & Hso & Hso2 & Hto).
  rewrite Hc in Hcfg.
  pose proof (two_level_disjoint _ _ _ _ _ _ _ _ _ _ _ _ _ Hsc Hsc2 Hso Hso2
                Hflat Hflat' Hne) as Hdisj.
  rewrite <- Hc in Htc, Hcfg.
  destruct (getConfig_twice configs h name (VRef o) _ _ _ _ Htc
              (tree_covered _ _ _ _ Hto) Hdisj)
    as (h1 & r1 & _ & _ & Hrun & _ & _ & _ & Hres).
  exists h1, r1. split.
  { intros fuel. eapply getConfig_fuel_le; [|exact Hrun]. lia. }
  destruct Hres as [_ Hsf].
  { left. by rewrite Hc. }
  { rewrite Hc. done. }
  by apply (Hsf _ _ Hcfg Hopt).
Qed.

(** *** The shapes of the scenario stores *)



End SelectConfigFacts.

(** ** The claims about the select configuration service *)

Module SelectConfigSpec.
Import SelectConfig Scenarios SelectConfigFacts.


(** C4. Whatever the store and the name: when the config registered under
    the name stands for [{a: {x: 0, y: 2}}] and the options stand for
    [{a: {x: 1}}], [getConfig] returns a value that stands for
    [{a: {x: 1, y: 2}}]: the two objects at key [a] are merged key by key,
    [y] is kept, the incoming [x] wins. *)
Theorem getConfig_merges_nested (configs : gmap string val)
    (h : gmap positive object) (name : string) (options : val) :
  stands_for h (registered configs name) tree_a_x0y2 →
  stands_for h options tree_a_x1 →
  ∃ h' r,
    (∀ fuel, getConfig (3 + fuel) configs h name options = Some (h', r)) ∧
    stands_for h' r tree_a_x1y2.
Proof.
  intros Hcfg Hopt.
  destruct (getConfig_two_level configs h name options
              KObject "a" KObject {[ "x" := TNum 0; "y" := TNum 2 ]}
              KObject "a" KObject {[ "x" := TNum 1 ]} Hcfg Hopt)
    as (h' & r & Hrun & Hr).
  - by apply (bool_decide_unpack _).
  - by apply (bool_decide_unpack _).
  - intros Heq. apply TNode_inj in Heq as [_ Heq].
    apply (f_equal (λ m, m !! "y")) in Heq. vm_compute in Heq. discriminate Heq.
  - exists h', r. split; [done|].
    assert (tree_a_x1y2 = deepAssign tree_a_x0y2 tree_a_x1) as ->
      by (vm_compute; reflexivity).
    exact Hr.
Qed.

Lemma getConfig_merges_nested_witness :
  stands_for mergeStore (registered {[ "select" := VRef 1 ]} "select") tree_a_x0y2 ∧
  stands_for mergeStore (VRef 3) tree_a_x1 ∧
  ∃ h' r,
    (∀ fuel, getConfig (3 + fuel) {[ "select" := VRef 1 ]} mergeStore "select"
               (VRef 3) = Some (h', r)) ∧
    stands_for h' r tree_a_x1y2.
Proof.
  assert (stands_for mergeStore (registered {[ "select" := VRef 1 ]} "select")
            tree_a_x0y2) as H1 by (exists 2; reflexivity).
  assert (stands_for mergeStore (VRef 3) tree_a_x1) as H2 by (exists 2; reflexivity).
  split_and!; [exact H1|exact H2|].
  exact (getConfig_merges_nested {[ "select" := VRef 1 ]} mergeStore "select"
           (VRef 3) H1 H2).
Defined.

(** C2, as claimed: with [{a: {x: 1}}] registered and the options
    [{a: [1, 2]}], [getConfig] would return [{a: [1, 2]}].  It does not,
    whatever the fuel. *)
Lemma getConfig_array_not_replaced :
  ¬ ∃ fuel h' r,
      getConfig fuel {[ "select" := VRef 1 ]} arrayStore "select" (VRef 3)
        = Some (h', r) ∧
      stands_for h' r tree_a_array12.
Proof.
  intros (fuel & h' & r & Hrun & Hr).
  destruct fuel as [|[|fuel]]; [discriminate Hrun|discriminate Hrun|].
  vm_compute in Hrun. injection Hrun as <- <-.
  assert (tree_a_x1_01 = tree_a_array12) as Heq.
  { eapply stands_for_unique; [|exact Hr]. by exists 2. }
  apply (f_equal (λ t, match t with
                       | TNode _ m => match m !! "a" with
                                      | Some (TNode k _) => Some k
                                      | _ => None
                                      end
                       | _ => None
                       end)) in Heq.
  vm_compute in Heq. discriminate Heq.
Qed.

(** C2, amended. Whatever the store and the name: when the config
    registered under the name stands for [{a: {x: 1}}] and the options stand
    for [{a: [1, 2]}], [getConfig] returns a value that stands for
    [{a: {x: 1, "0": 1, "1": 2}}]: the array is an object for [_.isObject],
    so the existing object at key [a] is kept and the elements of the array
    are merged into it under their index keys. *)
Theorem getConfig_array_merged (configs : gmap string val)
    (h : gmap positive object) (name : string) (options : val) :
  stands_for h (registered configs name) tree_a_x1 →
  stands_for h options tree_a_array12 →
  ∃ h' r,
    (∀ fuel, getConfig (3 + fuel) configs h name options = Some (h', r)) ∧
    stands_for h' r tree_a_x1_01.
Proof.
  intros Hcfg Hopt.
  destruct (getConfig_two_level configs h name options
              KObject "a" KObject {[ "x" := TNum 1 ]}
              KObject "a" KArray {[ "0" := TNum 1; "1" := TNum 2 ]} Hcfg Hopt)
    as (h' & r & Hrun & Hr).
  - by apply (bool_decide_unpack _).
  - by apply (bool_decide_unpack _).
  - intros Heq. by apply TNode_inj in Heq as [Heq _].
  - exists h', r. split; [done|].
    assert (tree_a_x1_01 = deepAssign tree_a_x1 tree_a_array12) as ->
      by (vm_compute; reflexivity).
    exact Hr.
Qed.

Lemma getConfig_array_merged_witness :
  stands_for arrayStore (registered {[ "select" := VRef 1 ]} "select") tree_a_x1 ∧
  stands_for arrayStore (VRef 3) tree_a_array12 ∧
  ∃ h' r,
    (∀ fuel, getConfig (3 + fuel) {[ "select" := VRef 1 ]} arrayStore "select"
               (VRef 3) = Some (h', r)) ∧
    stands_for h' r tree_a_x1_01.
Proof.
  assert (stands_for arrayStore (registered {[ "select" := VRef 1 ]} "select")
            tree_a_x1) as H1 by (exists 2; reflexivity).
  assert (stands_for arrayStore (VRef 3) tree_a_array12) as H2
    by (exists 2; reflexivity).
  split_and!; [exact H1|exact H2|].
  exact (getConfig_array_merged {[ "select" := VRef 1 ]} arrayStore "select"
           (VRef 3) H1 H2).
Defined.

(** C3, at the input where it fails: with [{a: {x: 0, y: 2}}] registered,
    [getConfig] with the options [{a: {x: 1}}] leaves the registered config
    as [{a: {x: 1, y: 2}}]; it is not deep-equal to what it was before the
    call.  The options still stand for [{a: {x: 1}}]. *)
Lemma getConfig_mutates_registered :
  ∃ h' r,
    (∀ fuel, getConfig (S (S fuel)) {[ "select" := VRef 1 ]} mergeStore "select"
               (VRef 3) = Some (h', r)) ∧
    stands_for mergeStore (VRef 1) tree_a_x0y2 ∧
    stands_for h' (VRef 1) tree_a_x1y2 ∧
    ¬ deep_equal mergeStore (VRef 1) h' (VRef 1) ∧
    stands_for h' (VRef 3) tree_a_x1.
Proof.
  eexists _, _. split; [intros fuel; vm_compute; reflexivity|].
  split_and!; [by exists 2|by exists 2| |by exists 2].
  intros Hde.
  assert (tree_a_x0y2 = tree_a_x1y2) as Heq.
  { eapply deep_equal_stands_for; [exact Hde|by exists 2|by exists 2]. }
  apply (f_equal (λ t, match t with
                       | TNode _ m => match m !! "a" with
                                      | Some (TNode _ m') => m' !! "x"
                                      | _ => None
                                      end
                       | _ => None
                       end)) in Heq.
  vm_compute in Heq. discriminate Heq.
Qed.





End SelectConfigSpec.

(** ** The claims about the breadcrumbs of the detail controller *)

Module BreadcrumbsSpec.
Import Breadcrumbs Scenarios.

Lemma ancestors_missing_parent : ∀ n e parents parentUrl count st,
  levels e = n → (count ≤ length parents < count + n)%nat →
  ∃ err, ancestors e parents parentUrl count st = Throw err.
Proof.
  induction n as [|n IH]; intros e parents parentUrl count st Hlev Hlen; [lia|].
  destruct e as [nm [p|]]; simpl in Hlev; [|discriminate].
  injection Hlev as Hlev. simpl.
  destruct (parents !! count) as [parent|] eqn:Hp; [|eauto].
  apply lookup_lt_Some in Hp. apply (IH p); [done|lia].
Qed.

(** C6. Endpoint "widget" without a parent endpoint, base url ["/widgets"],
    a route id other than ["new"] (the label of the current item is empty):
    the breadcrumbs are [Widgets -> #/widgets] followed by the entry of the
    current item, with the empty title and no url; the ui stack is empty. *)
Theorem build_root_widget (parents : list parentObject) (routeId : option string) :
  routeId ≠ Some "new" →
  build {| cfg_endpoint := widget; cfg_baseUrl := "/widgets" |} parents routeId
  = Ok {| breadcrumbs := [ {| title := "Widgets"; url := Some "#/widgets" |};
                           {| title := ""; url := None |} ];
          uiStack := [] |}.
Proof.
  intros Hid. unfold build. simpl. by rewrite decide_False.
Qed.

Lemma build_root_widget_witness :
  Some "7" ≠ Some "new" ∧
  build {| cfg_endpoint := widget; cfg_baseUrl := "/widgets" |} [] (Some "7")
  = Ok {| breadcrumbs := [ {| title := "Widgets"; url := Some "#/widgets" |};
                           {| title := ""; url := None |} ];
          uiStack := [] |}.
Proof.
  split; [discriminate|]. apply (build_root_widget [] (Some "7")). discriminate.
Defined.

(** C1, as claimed: with the parent endpoint "gadget", the parent object
    named "Acme" and the base url ["/gadgets/42/widgets"], the breadcrumbs
    would have four entries, the third being [Widgets ->
    #/gadgets/42/widgets].  They do not. *)
Lemma build_gadget_widget_no_collection_entry :
  build {| cfg_endpoint := gadgetWidget; cfg_baseUrl := "/gadgets/42/widgets" |}
        [acme] (Some "7")
  ≠ Ok {| breadcrumbs :=
            [ {| title := "Gadgets"; url := Some "#/gadgets" |};
              {| title := "Acme"; url := Some "#/gadgets/42?tab=widgets" |};
              {| title := "Widgets"; url := Some "#/gadgets/42/widgets" |};
              {| title := ""; url := None |} ];
          uiStack :=
            [ {| title := "Acme"; url := Some "#/gadgets/42?tab=widgets" |} ] |}.
Proof. vm_compute. discriminate. Qed.

(** C1, amended. With the parent endpoint "gadget", the parent object named
    "Acme", the base url ["/gadgets/42/widgets"] and a route id other than
    ["new"], the breadcrumbs are [Gadgets -> #/gadgets], [Acme ->
    #/gadgets/42?tab=widgets] and the entry of the current item (empty
    title, no url); the ui stack is [Acme -> #/gadgets/42?tab=widgets].  One
    path segment is stripped for the parent's detail page and one more for
    its collection. *)
Theorem build_gadget_widget (routeId : option string) :
  routeId ≠ Some "new" →
  build {| cfg_endpoint := gadgetWidget; cfg_baseUrl := "/gadgets/42/widgets" |}
        [acme] routeId
  = Ok {| breadcrumbs :=
            [ {| title := "Gadgets"; url := Some "#/gadgets" |};
              {| title := "Acme"; url := Some "#/gadgets/42?tab=widgets" |};
              {| title := ""; url := None |} ];
          uiStack :=
            [ {| title := "Acme"; url := Some "#/gadgets/42?tab=widgets" |} ] |}.
Proof.
  intros Hid. unfold build. simpl. by rewrite decide_False.
Qed.

Lemma build_gadget_widget_witness :
  Some "7" ≠ Some "new" ∧
  build {| cfg_endpoint := gadgetWidget; cfg_baseUrl := "/gadgets/42/widgets" |}
        [acme] (Some "7")
  = Ok {| breadcrumbs :=
            [ {| title := "Gadgets"; url := Some "#/gadgets" |};
              {| title := "Acme"; url := Some "#/gadgets/42?tab=widgets" |};
              {| title := ""; url := None |} ];
          uiStack :=
            [ {| title := "Acme"; url := Some "#/gadgets/42?tab=widgets" |} ] |}.
Proof.
  split; [discriminate|]. apply (build_gadget_widget (Some "7")). discriminate.
Defined.

(** C9. When [parents] has fewer entries than the endpoint has ancestor
    levels, the construction throws (a [TypeError], on reading [name] from
    the missing parent) and returns neither breadcrumbs nor ui stack. *)
Theorem build_missing_parent (cfg : config) (parents : list parentObject)
    (routeId : option string) :
  (length parents < levels (cfg_endpoint cfg))%nat →
  ∃ err, build cfg parents routeId = Throw err.
Proof.
  intros Hlen. unfold build.
  destruct (cfg_endpoint cfg) as [nm [p|]] eqn:He; simpl in Hlen; [|lia].
  cbn [parentEndpoint].
  destruct (ancestors_missing_parent (S (levels p)) (Endpoint nm (Some p)) parents
              (cfg_baseUrl cfg) 0 {| breadcrumbs := []; uiStack := [] |})
    as [err Herr]; [done|simpl; lia|].
  exists err. by rewrite Herr.
Qed.

Lemma build_missing_parent_witness :
  (length (@nil parentObject) < levels gadgetWidget)%nat ∧
  ∃ err,
    build {| cfg_endpoint := gadgetWidget; cfg_baseUrl := "/gadgets/42/widgets" |}
          [] (Some "7") = Throw err.
Proof.
  split; [simpl; lia|].
  apply (build_missing_parent
           {| cfg_endpoint := gadgetWidget; cfg_baseUrl := "/gadgets/42/widgets" |}
           [] (Some "7")).
  simpl; lia.
Defined.

End BreadcrumbsSpec.

(** ** The claim about the rejection handler of [$scope.save] *)

Module DetailControllerSpec.
Import DetailController.






End DetailControllerSpec.

(** ** Paths: [split], [join] and [splitShiftAndJoin] *)

Module PathFacts.
Import JsString Breadcrumbs Paths.

Lemma append_cons c (a b : string) : String c a +:+ b = String c (a +:+ b).
Proof. reflexivity. Qed.

Lemma append_empty_r (s : string) : s +:+ "" = s.
Proof. induction s as [|c s IH]; [done|]. by rewrite append_cons, IH. Qed.

Lemma append_assoc (a b c : string) : (a +:+ b) +:+ c = a +:+ (b +:+ c).
Proof. induction a as [|x a IH]; [done|]. by rewrite !append_cons, IH. Qed.

Lemma split_acc_nonempty sep cur s : split_acc sep cur s ≠ [].
Proof.
  revert cur. induction s as [|c s IH]; intros cur; simpl; [done|].
  destruct (Ascii.eqb c sep); [done|apply IH].
Qed.

Lemma join_cons sep x xs : xs ≠ [] → join sep (x :: xs) = x +:+ sep +:+ join sep xs.
Proof. by destruct xs. Qed.

Lemma join_split_acc sep s : ∀ cur,
  join (String sep "") (split_acc sep cur s) = cur +:+ s.
Proof.
  induction s as [|c s IH]; intros cur; cbn [split_acc].
  - symmetry. apply append_empty_r.
  - destruct (Ascii.eqb c sep) eqn:E.
    + apply Ascii.eqb_eq in E as ->.
      rewrite join_cons by apply split_acc_nonempty. by rewrite IH.
    + rewrite IH. by rewrite append_assoc.
Qed.

(** X1. Splitting a string at ["/"] and joining the pieces with ["/"] gives
    the string back; in particular [splitShiftAndJoin(path, 0)] is [path]. *)
Theorem join_split (s : string) :
  join "/" (split "/" s) = s ∧ splitShiftAndJoin s 0 = s.
Proof.
  assert (join "/" (split "/" s) = s) as H by apply (join_split_acc "/" s "").
  split; [done|]. unfold splitShiftAndJoin, initial.
  by rewrite Nat.sub_0_r, firstn_all.
Qed.

Lemma countChar_app c a b : countChar c (a +:+ b) = countChar c a + countChar c b.
Proof.
  induction a as [|x a IH]; [done|]. rewrite append_cons. simpl. rewrite IH. lia.
Qed.

Lemma split_acc_length sep s : ∀ cur,
  length (split_acc sep cur s) = S (countChar sep s).
Proof.
  induction s as [|c s IH]; intros cur; simpl; [done|].
  destruct (Ascii.eqb c sep); simpl; by rewrite IH.
Qed.

Lemma split_acc_pieces sep s : ∀ cur,
  countChar sep cur = 0 →
  Forall (λ p, countChar sep p = 0) (split_acc sep cur s).
Proof.
  induction s as [|c s IH]; intros cur Hcur; simpl.
  - by apply Forall_singleton.
  - destruct (Ascii.eqb c sep) eqn:E.
    + apply Forall_cons. split; [done|]. by apply IH.
    + apply IH. rewrite countChar_app. simpl. rewrite E. lia.
Qed.

(** X2. [path.split('/')] has one piece more than the path has slashes (so
    at least one piece, also for the empty path), and no piece contains a
    slash. *)
Theorem split_pieces (s : string) :
  length (split "/" s) = S (countChar "/" s) ∧ Forall segment (split "/" s).
Proof.
  split; [apply split_acc_length|]. by apply split_acc_pieces.
Qed.

Lemma split_acc_segment sep s : ∀ cur,
  countChar sep s = 0 → split_acc sep cur s = [cur +:+ s].
Proof.
  induction s as [|c s IH]; intros cur Hs; cbn [split_acc countChar] in *.
  - by rewrite append_empty_r.
  - destruct (Ascii.eqb c sep); [lia|]. rewrite IH by lia. by rewrite append_assoc.
Qed.

Lemma split_acc_app sep p seg : ∀ cur,
  split_acc sep cur (p +:+ String sep seg)
  = split_acc sep cur p ++ split_acc sep "" seg.
Proof.
  induction p as [|c p IH]; intros cur.
  - change ("" +:+ String sep seg) with (String sep seg). simpl.
    by rewrite Ascii.eqb_refl.
  - rewrite append_cons. simpl. destruct (Ascii.eqb c sep); by rewrite IH.
Qed.

Lemma strip_last (p seg : string) : segment seg → strip (p +:+ "/" +:+ seg) = p.
Proof.
  intros Hseg. unfold strip, splitShiftAndJoin, initial, split.
  change (p +:+ "/" +:+ seg) with (p +:+ String "/" seg).
  rewrite split_acc_app, (split_acc_segment "/" seg "" Hseg). simpl.
  rewrite length_app. simpl.
  replace (length (split_acc "/" "" p) + 1 - 1) with (length (split_acc "/" "" p)) by lia.
  rewrite take_app_length. apply (join_split_acc "/" p "").
Qed.

(** X3. [splitShiftAndJoin(url, 1)] removes the last path segment together
    with its slash, whatever precedes it (an empty last segment, that is a
    trailing slash, counts as a segment); a url without a slash becomes the
    empty string. *)
Theorem splitShiftAndJoin_last (p seg : string) :
  segment seg →
  splitShiftAndJoin (p +:+ "/" +:+ seg) 1 = p ∧ splitShiftAndJoin seg 1 = "".
Proof.
  intros Hseg. split; [by apply strip_last|].
  unfold splitShiftAndJoin, initial, split.
  by rewrite (split_acc_segment "/" seg "" Hseg).
Qed.

Lemma splitShiftAndJoin_last_witness :
  segment "widgets" ∧
  splitShiftAndJoin ("/gadgets/42" +:+ "/" +:+ "widgets") 1 = "/gadgets/42" ∧
  splitShiftAndJoin "widgets" 1 = "".
Proof.
  split; [reflexivity|]. apply (splitShiftAndJoin_last "/gadgets/42" "widgets").
  reflexivity.
Defined.



End PathFacts.

(** ** The breadcrumb builder on every endpoint chain *)

Module BreadcrumbsFacts.
Import JsString Breadcrumbs Paths BreadcrumbShape PathFacts.

Lemma build_unfold cfg parents routeId :
  build cfg parents routeId
  = match (match parentEndpoint (cfg_endpoint cfg) with
           | Some _ => ancestors (cfg_endpoint cfg) parents (cfg_baseUrl cfg) 0
                         {| breadcrumbs := []; uiStack := [] |}
           | None => Ok {| breadcrumbs :=
                             [ {| title := capitalize (getEndpointName (cfg_endpoint cfg)) +:+ "s";
                                  url := Some ("#" +:+ cfg_baseUrl cfg) |} ];
                           uiStack := [] |}
           end) with
    | Ok st => Ok {| breadcrumbs := breadcrumbs st ++ [terminal routeId];
                     uiStack := uiStack st |}
    | Throw e => Throw e
    end.
Proof. reflexivity. Qed.

Lemma ancestors_step nm p parents parentUrl count st parent :
  parents !! count = Some parent →
  ancestors (Endpoint nm (Some p)) parents parentUrl count st
  = let detailBreadcrumb :=
      {| title := name parent;
         url := Some ("#" +:+ strip parentUrl +:+ "?tab=" +:+ nm +:+ "s") |} in
    ancestors p parents (strip (strip parentUrl)) (S count)
      {| breadcrumbs :=
           {| title := capitalize (getEndpointName p) +:+ "s";
              url := Some ("#" +:+ strip (strip parentUrl)) |}
           :: detailBreadcrumb :: breadcrumbs st;
         uiStack := detailBreadcrumb :: uiStack st |}.
Proof. intros Hp. cbn [ancestors]. by rewrite Hp. Qed.

(** The loop with enough parents left: it ends normally, and what it has
    added in front of the two arrays. *)
Lemma ancestors_ok : ∀ n e parents parentUrl count st,
  levels e = n → (count + n ≤ length parents)%nat →
  ∃ st',
    ancestors e parents parentUrl count st = Ok st' ∧
    (∃ bs, breadcrumbs st' = bs ++ breadcrumbs st ∧ length bs = 2 * n ∧
           Forall linked bs) ∧
    (∃ us, uiStack st' = us ++ uiStack st ∧
           title <$> us = reverse (name <$> take n (drop count parents)) ∧
           Forall linked us) ∧
    (sublist (uiStack st) (breadcrumbs st) →
     sublist (uiStack st') (breadcrumbs st')).
Proof.
  induction n as [|n IH]; intros e parents parentUrl count st Hlev Hlen.
  - destruct e as [nm [p|]]; [discriminate|]. exists st. simpl.
    split_and!; [done| | |done].
    + by exists [].
    + by exists [].
  - destruct e as [nm [p|]]; [|discriminate]. injection Hlev as Hlev.
    destruct (lookup_lt_is_Some_2 parents count) as [parent Hp]; [lia|].
    rewrite (ancestors_step _ _ _ _ _ _ _ Hp). cbv zeta.
    destruct (IH p parents (strip (strip parentUrl)) (S count)
                {| breadcrumbs :=
                     {| title := capitalize (getEndpointName p) +:+ "s";
                        url := Some ("#" +:+ strip (strip parentUrl)) |}
                     :: {| title := name parent;
                           url := Some ("#" +:+ strip parentUrl +:+ "?tab=" +:+ nm +:+ "s") |}
                     :: breadcrumbs st;
                   uiStack := {| title := name parent;
                                 url := Some ("#" +:+ strip parentUrl +:+ "?tab=" +:+ nm +:+ "s") |}
                              :: uiStack st |})
      as (st' & Hrun & (bs & Hbs & Hbl & Hbf) & (us & Hus & Hut & Huf) & Hsub);
      [done|lia|].
    exists st'. split; [done|]. cbn [breadcrumbs uiStack] in *. split_and!.
    + eexists (bs ++ [_; _]). rewrite <- app_assoc. split; [exact Hbs|].
      split; [rewrite length_app; simpl; lia|].
      apply Forall_app. split; [done|].
      repeat apply Forall_cons_2; [by eexists|by eexists|done].
    + eexists (us ++ [_]). rewrite <- app_assoc. split; [exact Hus|]. split.
      * rewrite fmap_app, Hut. simpl.
        rewrite (drop_S _ _ _ Hp). simpl. by rewrite reverse_cons.
      * apply Forall_app. split; [done|]. apply Forall_singleton. by eexists.
    + intros Hs. apply Hsub. by apply sublist_cons, sublist_skip.
Qed.

(** X5. The construction ends normally exactly when [parents] has at least
    as many entries as the endpoint has ancestor levels; the base url never
    makes it fail, however short it is. *)
Theorem build_ok_iff (cfg : config) (parents : list parentObject)
    (routeId : option string) :
  (∃ st, build cfg parents routeId = Ok st)
  ↔ (levels (cfg_endpoint cfg) ≤ length parents)%nat.
Proof.
  split.
  - intros [st Hst]. destruct (decide (levels (cfg_endpoint cfg) ≤ length parents)%nat)
      as [|Hlt]; [done|]. exfalso. rewrite build_unfold in Hst.
    destruct (cfg_endpoint cfg) as [nm [p|]] eqn:He; [|simpl in Hlt; lia].
    cbn [parentEndpoint] in Hst.
    destruct (BreadcrumbsSpec.ancestors_missing_parent (levels (Endpoint nm (Some p)))
                (Endpoint nm (Some p)) parents (cfg_baseUrl cfg) 0
                {| breadcrumbs := []; uiStack := [] |}) as [err Herr]; [done|lia|].
    by rewrite Herr in Hst.
  - intros Hlen. rewrite build_unfold.
    destruct (parentEndpoint (cfg_endpoint cfg)); [|eauto].
    destruct (ancestors_ok _ (cfg_endpoint cfg) parents (cfg_baseUrl cfg) 0
                {| breadcrumbs := []; uiStack := [] |} eq_refl)
      as (st' & -> & _); [lia|]. eauto.
Qed.

Lemma build_ok_inv cfg parents routeId st :
  build cfg parents routeId = Ok st →
  ∃ st0,
    breadcrumbs st = breadcrumbs st0 ++ [terminal routeId] ∧
    uiStack st = uiStack st0 ∧
    ((parentEndpoint (cfg_endpoint cfg) = None ∧
      st0 = {| breadcrumbs :=
                 [ {| title := capitalize (getEndpointName (cfg_endpoint cfg)) +:+ "s";
                      url := Some ("#" +:+ cfg_baseUrl cfg) |} ];
               uiStack := [] |}) ∨
     (levels (cfg_endpoint cfg) ≠ 0 ∧
      (levels (cfg_endpoint cfg) ≤ length parents)%nat ∧
      ancestors (cfg_endpoint cfg) parents (cfg_baseUrl cfg) 0
        {| breadcrumbs := []; uiStack := [] |} = Ok st0)).
Proof.
  intros Hst.
  assert (levels (cfg_endpoint cfg) ≤ length parents)%nat as Hlen
    by (apply (build_ok_iff cfg parents routeId); eauto).
  rewrite build_unfold in Hst.
  destruct (cfg_endpoint cfg) as [nm [p|]] eqn:He; cbn [parentEndpoint] in Hst.
  - destruct (ancestors _ _ _ _ _) as [st0|] eqn:Hrun; [|done].
    injection Hst as <-. exists st0. split_and!; [done|done|]. right.
    split_and!; [simpl; lia|done|done].
  - injection Hst as <-.
    exists {| breadcrumbs := [ {| title := capitalize nm +:+ "s";
                                 url := Some ("#" +:+ cfg_baseUrl cfg) |} ];
              uiStack := [] |}.
    split_and!; [done|done|]. by left.
Qed.

(** X6. When the construction ends normally for an endpoint with [N]
    ancestor levels, the ui stack has [N] entries and the breadcrumbs have
    [2 N + 1] entries, or 2 when the endpoint has no parent. *)
Theorem build_lengths (cfg : config) (parents : list parentObject)
    (routeId : option string) (st : crumbs) :
  build cfg parents routeId = Ok st →
  length (uiStack st) = levels (cfg_endpoint cfg) ∧
  length (breadcrumbs st)
  = if decide (levels (cfg_endpoint cfg) = 0) then 2
    else 2 * levels (cfg_endpoint cfg) + 1.
Proof.
  intros Hst.
  destruct (build_ok_inv _ _ _ _ Hst) as (st0 & Hb & Hu & [[Hroot ->]|(Hn & Hlen & Hrun)]).
  - destruct (cfg_endpoint cfg) as [nm [p|]]; [done|]. by rewrite Hb, Hu.
  - destruct (ancestors_ok _ (cfg_endpoint cfg) parents (cfg_baseUrl cfg) 0
                {| breadcrumbs := []; uiStack := [] |} eq_refl)
      as (st' & Hrun' & (bs & Hbs & Hbl & _) & (us & Hus & Hut & _) & _); [lia|].
    rewrite Hrun in Hrun'. injection Hrun' as <-.
    rewrite decide_False by done. rewrite Hb, Hu, Hbs, Hus.
    cbn [breadcrumbs uiStack]. rewrite !app_nil_r, length_app, Hbl. simpl.
    split; [|lia].
    rewrite <- (length_fmap title), Hut, length_reverse, length_fmap, length_take.
    rewrite drop_0. lia.
Qed.

Lemma build_lengths_witness :
  build {| cfg_endpoint := Scenarios.gadgetWidget;
           cfg_baseUrl := "/gadgets/42/widgets" |} [Scenarios.acme] (Some "new")
  = Ok {| breadcrumbs :=
            [ {| title := "Gadgets"; url := Some "#/gadgets" |};
              {| title := "Acme"; url := Some "#/gadgets/42?tab=widgets" |};
              {| title := "New"; url := None |} ];
          uiStack :=
            [ {| title := "Acme"; url := Some "#/gadgets/42?tab=widgets" |} ] |} ∧
  length [ {| title := "Acme"; url := Some "#/gadgets/42?tab=widgets" |} ] = 1 ∧
  length [ {| title := "Gadgets"; url := Some "#/gadgets" |};
           {| title := "Acme"; url := Some "#/gadgets/42?tab=widgets" |};
           {| title := "New"; url := None |} ] = 3.
Proof.
  split; [reflexivity|].
  exact (build_lengths
           {| cfg_endpoint := Scenarios.gadgetWidget;
              cfg_baseUrl := "/gadgets/42/widgets" |} [Scenarios.acme] (Some "new")
           _ eq_refl).
Defined.


(** X7. When the construction ends normally, the titles of the ui stack are
    the names of the first [N] parents in reverse order: [parents[0]], the
    nearest ancestor, comes last. *)
Theorem build_uiStack_titles (cfg : config) (parents : list parentObject)
    (routeId : option string) (st : crumbs) :
  build cfg parents routeId = Ok st →
  title <$> uiStack st
  = reverse (name <$> take (levels (cfg_endpoint cfg)) parents).
Proof.
  intros Hst.
  destruct (build_ok_inv _ _ _ _ Hst) as (st0 & Hb & Hu & [[Hroot ->]|(Hn & Hlen & Hrun)]).
  - destruct (cfg_endpoint cfg) as [nm [p|]]; [done|]. by rewrite Hu.
  - destruct (ancestors_ok _ (cfg_endpoint cfg) parents (cfg_baseUrl cfg) 0
                {| breadcrumbs := []; uiStack := [] |} eq_refl)
      as (st' & Hrun' & _ & (us & Hus & Hut & _) & _); [lia|].
    rewrite Hrun in Hrun'. injection Hrun' as <-.
    rewrite Hu, Hus. cbn [uiStack]. by rewrite app_nil_r, Hut, drop_0.
Qed.

Lemma build_uiStack_titles_witness :
  build {| cfg_endpoint := Scenarios.gadgetWidget;
           cfg_baseUrl := "/gadgets/42/widgets" |} [Scenarios.acme] (Some "7")
  = Ok {| breadcrumbs :=
            [ {| title := "Gadgets"; url := Some "#/gadgets" |};
              {| title := "Acme"; url := Some "#/gadgets/42?tab=widgets" |};
              {| title := ""; url := None |} ];
          uiStack :=
            [ {| title := "Acme"; url := Some "#/gadgets/42?tab=widgets" |} ] |} ∧
  title <$> [ {| title := "Acme"; url := Some "#/gadgets/42?tab=widgets" |} ]
  = reverse (name <$> take 1 [Scenarios.acme]).
Proof.
  split; [reflexivity|].
  exact (build_uiStack_titles
           {| cfg_endpoint := Scenarios.gadgetWidget;
              cfg_baseUrl := "/gadgets/42/widgets" |} [Scenarios.acme] (Some "7")
           _ eq_refl).
Defined.

Lemma ancestors_take : ∀ n e parents parentUrl count st,
  levels e = n →
  ancestors e parents parentUrl count st
  = ancestors e (take (count + n) parents) parentUrl count st.
Proof.
  induction n as [|n IH]; intros e parents parentUrl count st Hlev.
  - by destruct e as [nm [p|]].
  - destruct e as [nm [p|]]; [|discriminate]. injection Hlev as Hlev.
    cbn [ancestors]. rewrite lookup_take_lt by lia.
    destruct (parents !! count) as [parent|]; [|done].
    rewrite (IH p parents _ (S count)) by done.
    rewrite (IH p (take (count + S n) parents) _ (S count)) by done.
    rewrite take_take. do 2 f_equal. lia.
Qed.

(** X8. Only the first [N] entries of [parents] are read: further entries
    change nothing, whether the construction ends normally or throws. *)
Theorem build_take (cfg : config) (parents : list parentObject)
    (routeId : option string) :
  build cfg parents routeId
  = build cfg (take (levels (cfg_endpoint cfg)) parents) routeId.
Proof.
  rewrite !build_unfold. destruct (parentEndpoint (cfg_endpoint cfg)); [|done].
  by rewrite (ancestors_take _ (cfg_endpoint cfg) parents _ 0 _ eq_refl).
Qed.

(** X9. When the construction ends normally, the breadcrumbs end with the
    entry of the current item, which has no url and the title ["New"] for the
    route id ["new"] and the empty title otherwise; every other breadcrumb
    and every entry of the ui stack has a url that starts with ["#"]. *)
Theorem build_terminal (cfg : config) (parents : list parentObject)
    (routeId : option string) (st : crumbs) :
  build cfg parents routeId = Ok st →
  ∃ init, breadcrumbs st = init ++ [terminal routeId] ∧
          Forall linked init ∧ Forall linked (uiStack st) ∧
          ¬ linked (terminal routeId).
Proof.
  intros Hst.
  assert (¬ linked (terminal routeId)) as Hterm by (by intros [u Hu]).
  destruct (build_ok_inv _ _ _ _ Hst) as (st0 & Hb & Hu & [[Hroot ->]|(Hn & Hlen & Hrun)]).
  - eexists. split; [exact Hb|]. rewrite Hu. cbn [breadcrumbs uiStack].
    split_and!; [|done|done]. apply Forall_singleton. by eexists.
  - destruct (ancestors_ok _ (cfg_endpoint cfg) parents (cfg_baseUrl cfg) 0
                {| breadcrumbs := []; uiStack := [] |} eq_refl)
      as (st' & Hrun' & (bs & Hbs & _ & Hbf) & (us & Hus & _ & Huf) & _); [lia|].
    rewrite Hrun in Hrun'. injection Hrun' as <-.
    exists (breadcrumbs st0). split; [done|]. rewrite Hu, Hbs, Hus.
    cbn [breadcrumbs uiStack]. by rewrite !app_nil_r.
Qed.

Lemma build_terminal_witness :
  build {| cfg_endpoint := Scenarios.widget; cfg_baseUrl := "/widgets" |} []
        (Some "new")
  = Ok {| breadcrumbs := [ {| title := "Widgets"; url := Some "#/widgets" |};
                           {| title := "New"; url := None |} ];
          uiStack := [] |} ∧
  ∃ init, [ {| title := "Widgets"; url := Some "#/widgets" |};
            {| title := "New"; url := None |} ] = init ++ [terminal (Some "new")] ∧
          Forall linked init ∧ Forall linked [] ∧ ¬ linked (terminal (Some "new")).
Proof.
  split; [reflexivity|].
  exact (build_terminal {| cfg_endpoint := Scenarios.widget; cfg_baseUrl := "/widgets" |}
           [] (Some "new") _ eq_refl).
Defined.

(** X10. When the construction ends normally, the ui stack is a subsequence
    of the breadcrumbs: every ancestor entry of the ui stack is also a
    breadcrumb, and in the same order. *)
Theorem build_uiStack_sublist (cfg : config) (parents : list parentObject)
    (routeId : option string) (st : crumbs) :
  build cfg parents routeId = Ok st →
  sublist (uiStack st) (breadcrumbs st).
Proof.
  intros Hst.
  destruct (build_ok_inv _ _ _ _ Hst) as (st0 & Hb & Hu & [[Hroot ->]|(Hn & Hlen & Hrun)]).
  - rewrite Hu. apply sublist_nil_l.
  - destruct (ancestors_ok _ (cfg_endpoint cfg) parents (cfg_baseUrl cfg) 0
                {| breadcrumbs := []; uiStack := [] |} eq_refl)
      as (st' & Hrun' & _ & _ & Hsub); [lia|].
    rewrite Hrun in Hrun'. injection Hrun' as <-.
    rewrite Hb, Hu. apply sublist_inserts_r. apply Hsub. apply sublist_nil_l.
Qed.

Lemma build_uiStack_sublist_witness :
  build {| cfg_endpoint := Scenarios.gadgetWidget;
           cfg_baseUrl := "/gadgets/42/widgets" |} [Scenarios.acme] (Some "7")
  = Ok {| breadcrumbs :=
            [ {| title := "Gadgets"; url := Some "#/gadgets" |};
              {| title := "Acme"; url := Some "#/gadgets/42?tab=widgets" |};
              {| title := ""; url := None |} ];
          uiStack :=
            [ {| title := "Acme"; url := Some "#/gadgets/42?tab=widgets" |} ] |} ∧
  sublist [ {| title := "Acme"; url := Some "#/gadgets/42?tab=widgets" |} ]
          [ {| title := "Gadgets"; url := Some "#/gadgets" |};
            {| title := "Acme"; url := Some "#/gadgets/42?tab=widgets" |};
            {| title := ""; url := None |} ].
Proof.
  split; [reflexivity|].
  exact (build_uiStack_sublist
           {| cfg_endpoint := Scenarios.gadgetWidget;
              cfg_baseUrl := "/gadgets/42/widgets" |} [Scenarios.acme] (Some "7")
           _ eq_refl).
Defined.

Lemma ancestors_head : ∀ n e parents parentUrl count st st',
  levels e = S n →
  ancestors e parents parentUrl count st = Ok st' →
  head (breadcrumbs st')
  = Some {| title := capitalize (getEndpointName (root e)) +:+ "s";
            url := Some ("#" +:+ Nat.iter (2 * S n) strip parentUrl) |}.
Proof.
  induction n as [|n IH]; intros e parents parentUrl count st st' Hlev Hrun;
    destruct e as [nm [p|]]; try discriminate; injection Hlev as Hlev.
  - cbn [ancestors] in Hrun. destruct (parents !! count) as [parent|]; [|done].
    destruct p as [pn [pp|]]; [discriminate|]. simpl in Hrun.
    by injection Hrun as <-.
  - cbn [ancestors] in Hrun. destruct (parents !! count) as [parent|]; [|done].
    rewrite (IH _ _ _ _ _ _ Hlev Hrun). cbn [root].
    do 3 f_equal. replace (2 * S (S n)) with (2 * S n + 2) by lia.
    by rewrite Nat.iter_add.
Qed.

(** X11. When the construction ends normally, the first breadcrumb is the
    collection of the endpoint at the top of the parent chain: its title is
    that endpoint's capitalized name with an ["s"], its url is ["#"] followed
    by the base url with two path segments removed per ancestor level. *)
Theorem build_first_is_root (cfg : config) (parents : list parentObject)
    (routeId : option string) (st : crumbs) :
  build cfg parents routeId = Ok st →
  head (breadcrumbs st)
  = Some {| title := capitalize (getEndpointName (root (cfg_endpoint cfg))) +:+ "s";
            url := Some ("#" +:+ Nat.iter (2 * levels (cfg_endpoint cfg)) strip
                                   (cfg_baseUrl cfg)) |}.
Proof.
  intros Hst.
  destruct (build_ok_inv _ _ _ _ Hst) as (st0 & Hb & Hu & [[Hroot ->]|(Hn & Hlen & Hrun)]).
  - destruct (cfg_endpoint cfg) as [nm [p|]]; [done|]. by rewrite Hb.
  - destruct (levels (cfg_endpoint cfg)) as [|n] eqn:Hlev; [done|].
    pose proof (ancestors_head _ _ _ _ _ _ _ Hlev Hrun) as Hhd.
    rewrite Hb. destruct (breadcrumbs st0); [done|]. exact Hhd.
Qed.

Lemma build_first_is_root_witness :
  build {| cfg_endpoint := Scenarios.gadgetWidget;
           cfg_baseUrl := "/gadgets/42/widgets" |} [Scenarios.acme] (Some "7")
  = Ok {| breadcrumbs :=
            [ {| title := "Gadgets"; url := Some "#/gadgets" |};
              {| title := "Acme"; url := Some "#/gadgets/42?tab=widgets" |};
              {| title := ""; url := None |} ];
          uiStack :=
            [ {| title := "Acme"; url := Some "#/gadgets/42?tab=widgets" |} ] |} ∧
  head [ {| title := "Gadgets"; url := Some "#/gadgets" |};
         {| title := "Acme"; url := Some "#/gadgets/42?tab=widgets" |};
         {| title := ""; url := None |} ]
  = Some {| title := capitalize (getEndpointName (root Scenarios.gadgetWidget)) +:+ "s";
            url := Some ("#" +:+ Nat.iter (2 * levels Scenarios.gadgetWidget) strip
                                   "/gadgets/42/widgets") |}.
Proof.
  split; [reflexivity|].
  exact (build_first_is_root
           {| cfg_endpoint := Scenarios.gadgetWidget;
              cfg_baseUrl := "/gadgets/42/widgets" |} [Scenarios.acme] (Some "7")
           _ eq_refl).
Defined.

(** X12. One ancestor level, any names: for a base url [q/id/sub] whose last
    two segments are [id] and [sub], the breadcrumbs are the parent's
    collection at [#q], the parent's detail page at [#q/id?tab=] followed by
    the endpoint's name and an ["s"], and the entry of the current item; the
    ui stack is the entry of the parent's detail page. *)
Theorem build_one_parent (ename pname : string) (parent : parentObject)
    (rest : list parentObject) (q id sub : string) (routeId : option string) :
  segment id → segment sub →
  build {| cfg_endpoint := Endpoint ename (Some (Endpoint pname None));
           cfg_baseUrl := (q +:+ "/" +:+ id) +:+ "/" +:+ sub |}
        (parent :: rest) routeId
  = Ok {| breadcrumbs :=
            [ {| title := capitalize pname +:+ "s"; url := Some ("#" +:+ q) |};
              {| title := name parent;
                 url := Some ("#" +:+ (q +:+ "/" +:+ id) +:+ "?tab=" +:+ ename +:+ "s") |};
              terminal routeId ];
          uiStack :=
            [ {| title := name parent;
                 url := Some ("#" +:+ (q +:+ "/" +:+ id) +:+ "?tab=" +:+ ename +:+ "s") |} ] |}.
Proof.
  intros Hid Hsub. rewrite build_unfold. cbn [cfg_endpoint cfg_baseUrl parentEndpoint].
  rewrite (ancestors_step _ _ _ _ _ _ parent) by done. cbv zeta.
  rewrite (strip_last _ sub Hsub), (strip_last q id Hid). reflexivity.
Qed.

Lemma build_one_parent_witness :
  segment "42" ∧ segment "widgets" ∧
  build {| cfg_endpoint := Endpoint "widget" (Some (Endpoint "gadget" None));
           cfg_baseUrl := ("/gadgets" +:+ "/" +:+ "42") +:+ "/" +:+ "widgets" |}
        ({| name := "Acme" |} :: []) (Some "7")
  = Ok {| breadcrumbs :=
            [ {| title := capitalize "gadget" +:+ "s"; url := Some ("#" +:+ "/gadgets") |};
              {| title := "Acme";
                 url := Some ("#" +:+ ("/gadgets" +:+ "/" +:+ "42") +:+ "?tab="
                                +:+ "widget" +:+ "s") |};
              terminal (Some "7") ];
          uiStack :=
            [ {| title := "Acme";
                 url := Some ("#" +:+ ("/gadgets" +:+ "/" +:+ "42") +:+ "?tab="
                                +:+ "widget" +:+ "s") |} ] |}.
Proof.
  split; [reflexivity|]. split; [reflexivity|].
  exact (build_one_parent "widget" "gadget" {| name := "Acme" |} [] "/gadgets" "42"
           "widgets" (Some "7") eq_refl eq_refl).
Defined.

End BreadcrumbsFacts.

(** ** More about the select configuration service *)

Module SelectConfigMore.
Import SelectConfig Scenarios SelectConfigFacts.

#[local] Arguments getProp : simpl never.
#[local] Arguments setProp : simpl never.
#[local] Arguments keys : simpl never.


Lemma keys_no_props h s : propsOf h s = ∅ → keys h s = [].
Proof.
  unfold keys, propsOf. destruct s as [| | | | |l]; try done.
  destruct (h !! l) as [o|]; [|done]. intros ->. by rewrite map_to_list_empty.
Qed.

Lemma assignDeep_no_props n h t s :
  propsOf h s = ∅ → assignDeep (S n) h t s = Some (h, t).
Proof.
  intros Hs. rewrite assignDeep_unfold. unfold assign.
  rewrite (keys_no_props _ _ Hs). by destruct (truthy t).
Qed.

Lemma getConfig_unfold fuel configs h name options :
  isUndefined (registered configs name) && isUndefined options = false →
  getConfig fuel configs h name options
  = assignDeep fuel (cloneOrEmpty h (registered configs name)).1
      (cloneOrEmpty h (registered configs name)).2 options.
Proof.
  intros Hu. unfold getConfig. rewrite Hu.
  by destruct (cloneOrEmpty h (registered configs name)).
Qed.

(** X13. When a plain object or an array is registered under the name and
    the options have no own property (they are undefined, a primitive, or
    an empty object), [getConfig] allocates one new object and returns it:
    a shallow copy of the registered config, of the same kind and with the
    very same property values, so that nested objects are shared with the
    registry.  Nothing else in the store changes. *)
Theorem getConfig_copies_registered (configs : gmap string val)
    (h : gmap positive object) (name : string) (options : val)
    (c : positive) (kd : kind) (P : gmap string val) (fuel : nat) :
  registered configs name = VRef c →
  h !! c = Some (Obj kd P) →
  kd ≠ KFunction →
  (∀ l, options = VRef l → ∃ k, h !! l = Some (Obj k ∅)) →
  getConfig (S fuel) configs h name options
  = Some (<[fresh (dom h) := Obj kd P]> h, VRef (fresh (dom h))) ∧
  fresh (dom h) ≠ c.
Proof.
  intros Hreg Hc Hkd Hopt. split.
  - rewrite getConfig_unfold by (by rewrite Hreg).
    rewrite Hreg, (cloneOrEmpty_object _ _ _ _ Hc Hkd). cbn [fst snd].
    apply assignDeep_no_props.
    destruct options as [| | | | |l]; try done.
    destruct (Hopt l eq_refl) as [k Hl]. simpl.
    rewrite lookup_insert_ne; [by rewrite Hl|]. intros Heq.
    apply (is_fresh (dom h)). rewrite Heq. apply elem_of_dom. eauto.
  - intros Heq. apply (is_fresh (dom h)). rewrite Heq. apply elem_of_dom. eauto.
Qed.

Lemma getConfig_copies_registered_witness :
  registered {[ "select" := VRef 1 ]} "select" = VRef 1 ∧
  mergeStore !! 1%positive = Some (Obj KObject {[ "a" := VRef 2 ]}) ∧
  KObject ≠ KFunction ∧
  (∀ l, VUndefined = VRef l → ∃ k, mergeStore !! l = Some (Obj k ∅)) ∧
  getConfig 1 {[ "select" := VRef 1 ]} mergeStore "select" VUndefined
  = Some (<[fresh (dom mergeStore) := Obj KObject {[ "a" := VRef 2 ]}]> mergeStore,
          VRef (fresh (dom mergeStore))) ∧
  fresh (dom mergeStore) ≠ 1%positive.
Proof.
  split; [reflexivity|]. split; [reflexivity|]. split; [discriminate|].
  split; [discriminate|].
  apply (getConfig_copies_registered {[ "select" := VRef 1 ]} mergeStore "select"
           VUndefined 1 KObject {[ "a" := VRef 2 ]} 0);
    [reflexivity|reflexivity|discriminate|discriminate].
Defined.








Lemma assignDeep_cycle key c o oc oo :
  oprops oc !! key = Some (VRef c) →
  oprops oo = {[ key := VRef o ]} →
  ∀ n h, h !! c = Some oc → h !! o = Some oo →
         assignDeep n h (VRef c) (VRef o) = None.
Proof.
  intros Hkc Hoo. induction n as [|n IH]; intros h Hc Ho; [done|].
  rewrite assignDeep_unfold. unfold assign. simpl truthy. cbv iota.
  rewrite (keys_ref _ _ _ Ho), Hoo, map_to_list_singleton.
  cbn [fmap list_fmap fst assign_loop].
  rewrite (getProp_ref _ _ _ _ Hc), (getProp_ref _ _ _ _ Ho), Hkc, Hoo.
  rewrite lookup_singleton_eq. cbn [default].
  rewrite deepCallback_rec by done. by rewrite IH.
Qed.

(** X17. A cycle on both sides makes the merge run for ever: when the
    registered object holds itself under a key and the options are an object
    whose only property, under that same key, is the options object itself,
    [assignDeep] meets the same pair of objects at every level, so no number
    of nested calls is enough and [getConfig] never returns (whatever else
    the registered object holds, and whether it is cloned or, as a function,
    used as it is). *)
Theorem getConfig_diverges_on_cycle (configs : gmap string val)
    (h : gmap positive object) (name key : string) (c o : positive)
    (oc oo : object) (fuel : nat) :
  registered configs name = VRef c →
  h !! c = Some oc →
  h !! o = Some oo →
  oprops oc !! key = Some (VRef c) →
  oprops oo = {[ key := VRef o ]} →
  getConfig fuel configs h name (VRef o) = None.
Proof.
  intros Hreg Hc Ho Hkc Hoo.
  rewrite getConfig_unfold by (by rewrite andb_false_r).
  rewrite Hreg. destruct oc as [kd P]. cbn [oprops] in Hkc.
  assert (kd = KFunction ∨ kd ≠ KFunction) as [->|Hkd]
    by (destruct kd; auto; right; discriminate).
  - rewrite (cloneOrEmpty_function _ _ _ Hc). cbn [fst snd].
    exact (assignDeep_cycle key c o (Obj KFunction P) oo Hkc Hoo fuel h Hc Ho).
  - rewrite (cloneOrEmpty_object _ _ _ _ Hc Hkd). cbn [fst snd].
    set (c' := fresh (dom h)).
    assert (c' ∉ dom h) as Hfresh by apply is_fresh.
    assert (c' ≠ c) as Hne1 by (intros ->; apply Hfresh, elem_of_dom; eauto).
    assert (c' ≠ o) as Hne2 by (intros ->; apply Hfresh, elem_of_dom; eauto).
    destruct fuel as [|n]; [done|].
    rewrite assignDeep_unfold. unfold assign. simpl truthy. cbv iota.
    assert (<[c' := Obj kd P]> h !! o = Some oo) as Ho'
      by (by rewrite lookup_insert_ne).
    assert (<[c' := Obj kd P]> h !! c = Some (Obj kd P)) as Hc'
      by (by rewrite lookup_insert_ne).
    rewrite (keys_ref _ _ _ Ho'), Hoo, map_to_list_singleton.
    cbn [fmap list_fmap fst assign_loop].
    rewrite (getProp_ref _ _ (Obj kd P) _ (lookup_insert_eq _ _ _)).
    rewrite (getProp_ref _ _ _ _ Ho'), Hoo. cbn [oprops].
    rewrite Hkc, lookup_singleton_eq. cbn [default].
    rewrite deepCallback_rec by done.
    unfold id.
    by rewrite (assignDeep_cycle key c o (Obj kd P) oo Hkc Hoo n _ Hc' Ho').
Qed.

Lemma getConfig_diverges_on_cycle_witness :
  getConfig 7 {[ "select" := VRef 1 ]}
    {[ 1%positive := Obj KObject {[ "self" := VRef 1; "n" := VNum 0 ]};
       2%positive := Obj KObject {[ "self" := VRef 2 ]} ]}
    "select" (VRef 2) = None.
Proof.
  exact (getConfig_diverges_on_cycle {[ "select" := VRef 1 ]}
           {[ 1%positive := Obj KObject {[ "self" := VRef 1; "n" := VNum 0 ]};
              2%positive := Obj KObject {[ "self" := VRef 2 ]} ]}
           "select" "self" 1 2
           (Obj KObject {[ "self" := VRef 1; "n" := VNum 0 ]})
           (Obj KObject {[ "self" := VRef 2 ]}) 7
           eq_refl eq_refl eq_refl eq_refl eq_refl).
Defined.

End SelectConfigMore.

(** ** Sequences of registrations *)

Module RegistryFacts.
Import SelectConfig Registry.

Lemma configAll_snoc configs calls call :
  configAll configs (calls ++ [call])
  = (config (configAll configs calls) call.1 call.2).1.
Proof. unfold configAll. by rewrite foldl_snoc. Qed.






End RegistryFacts.

(** ** Grouping conserves the messages *)

Module GroupingFacts.
Import DetailController Grouping.




End GroupingFacts.

(** ** What the detail page does over its life *)

Module DetailLifecycleFacts.
Import DetailController DetailLifecycle.

Section facts.
Context {D : Type} (idOf titleOf : D → string) (newModel : D) (setParent : D → D).

Lemma run_snoc trace a (p : @page D) :
  run idOf titleOf newModel setParent (trace ++ [a]) p
  = step idOf titleOf newModel setParent
      (run idOf titleOf newModel setParent trace p) a.
Proof. unfold run. by rewrite foldl_snoc. Qed.

Lemma cancels_snoc (trace : list (@action D)) a :
  cancels (trace ++ [a])
  = cancels trace + match a with CancelEdit => 1 | _ => 0 end.
Proof. unfold cancels. rewrite sum_list_with_app. simpl. lia. Qed.

Lemma init_exists detail0 routeId base :
  exists_ (sc (init titleOf newModel setParent detail0 routeId base))
  = exists_of routeId.
Proof. unfold init. simpl. by destruct (exists_of routeId), detail0. Qed.

Lemma init_baseUrl detail0 routeId base :
  baseUrl (sc (init titleOf newModel setParent detail0 routeId base)) = base.
Proof. unfold init. simpl. by destruct (exists_of routeId), detail0. Qed.

Lemma init_no_navigation detail0 routeId base path :
  LocationPath path
  ∉ effects (sc (init titleOf newModel setParent detail0 routeId base)).
Proof.
  unfold init. simpl. destruct (exists_of routeId), detail0; simpl;
    try apply not_elem_of_nil.
  intros H. apply list_elem_of_singleton in H. discriminate.
Qed.

Lemma step_exists (p : @page D) a :
  exists_ (sc (step idOf titleOf newModel setParent p a)) = exists_ (sc p) ∧
  baseUrl (sc (step idOf titleOf newModel setParent p a)) = baseUrl (sc p).
Proof.
  destruct a as [| | |[data|[[errs|]]]| |data]; simpl; unfold cancelEdit, edit;
    try destruct (exists_ (sc p)) eqn:E; try destruct (detail (sc p)); simpl; auto.
Qed.

(** X20. On the page of an existing object ([$routeParams.id] is neither
    empty nor ["new"]) and through any sequence of calls of the scope
    functions and of answers of the server: [exists] and [baseUrl] keep
    their values, [$window.history.back()] is never called, and the
    controller changes the location only after a remove has succeeded, and
    then to [baseUrl]. *)
Theorem existing_page_navigation (detail0 : option D) (routeId : option string)
    (base : string) (trace : list (@action D)) :
  exists_of routeId = true →
  let p := run idOf titleOf newModel setParent trace
             (init titleOf newModel setParent detail0 routeId base) in
  exists_ (sc p) = true ∧
  baseUrl (sc p) = base ∧
  historyBack p = 0 ∧
  ∀ path, LocationPath path ∈ effects (sc p) → path = base ∧ Removed ∈ trace.
Proof.
  intros Hex. induction trace as [|a trace IH] using rev_ind.
  { cbv zeta. unfold run. cbn [foldl].
    rewrite init_exists, init_baseUrl. split_and!; [done|done|done|].
    intros path Hp. by apply init_no_navigation in Hp. }
  cbv zeta in *. rewrite run_snoc.
  set (p := run idOf titleOf newModel setParent trace
              (init titleOf newModel setParent detail0 routeId base)) in *.
  destruct IH as (He & Hb & Hh & Hnav).
  destruct (step_exists p a) as [He' Hb'].
  split_and!; [congruence|congruence| |].
  - destruct a; simpl; try done. unfold cancelEdit. by rewrite He.
  - intros path Hp.
    assert (LocationPath path ∈ effects (sc p) ∨ (path = base ∧ a = Removed)) as [H|[-> ->]].
    { destruct a as [| | |[data|[[errs|]]]| |data]; simpl in Hp;
        unfold cancelEdit, edit in Hp; rewrite ?He in Hp;
        try destruct (detail (sc p)); simpl in Hp;
        try (apply elem_of_app in Hp as [Hp|Hp]; [by left|]);
        try (by left);
        repeat (apply elem_of_cons in Hp as [Hp|Hp]; [try discriminate|]);
        try (by apply elem_of_nil in Hp).
      all: injection Hp as ->; right; by rewrite Hb. }
    + destruct (Hnav path H) as [-> Hin]. split; [done|].
      apply elem_of_app. by left.
    + split; [done|]. apply elem_of_app. right. apply list_elem_of_singleton. done.
Qed.

(** X21. On the page of a new object ([exists] is false), as long as no
    reload is answered and [edit] is not called without a detail: the page
    stays in edit mode ([editDetail] is defined after the constructor and
    after every step), [detail] is never assigned (a successful save
    navigates instead of showing the saved object), every [cancelEdit] is
    one call of [$window.history.back()], and the location is only ever set
    to [baseUrl] after a successful remove or to [baseUrl + '/' + data.id]
    for the data of a successful save. *)
Theorem new_page_stays_in_edit_mode (detail0 : option D) (routeId : option string)
    (base : string) (trace : list (@action D)) :
  exists_of routeId = false →
  (∀ data, Reloaded data ∉ trace) →
  (detail0 = None → Edit ∉ trace) →
  let p := run idOf titleOf newModel setParent trace
             (init titleOf newModel setParent detail0 routeId base) in
  exists_ (sc p) = false ∧
  detail (sc p) = detail0 ∧
  is_Some (editDetail (sc p)) ∧
  historyBack p = cancels trace ∧
  ∀ path, LocationPath path ∈ effects (sc p) →
          (path = base ∧ Removed ∈ trace) ∨
          ∃ data, Saved (Resolved data) ∈ trace ∧ path = base +:+ "/" +:+ idOf data.
Proof.
  intros Hex. induction trace as [|a trace IH] using rev_ind; intros Hrel Hed.
  { cbv zeta. unfold run. cbn [foldl].
    rewrite init_exists. unfold init. simpl. rewrite Hex.
    split_and!; [done| | |done|].
    - by destruct detail0.
    - destruct detail0; simpl; eauto.
    - intros path Hp. destruct detail0; simpl in Hp; by apply elem_of_nil in Hp. }
  cbv zeta in *. rewrite run_snoc, cancels_snoc.
  set (p := run idOf titleOf newModel setParent trace
              (init titleOf newModel setParent detail0 routeId base)) in *.
  destruct IH as (He & Hd & Hedit & Hh & Hnav).
  { intros data Hin. apply (Hrel data), elem_of_app. by left. }
  { intros Hn Hin. apply (Hed Hn), elem_of_app. by left. }
  assert (base = baseUrl (sc p)) as Hb.
  { clear. subst p. induction trace as [|a trace IH] using rev_ind.
    - unfold run. cbn [foldl]. by rewrite init_baseUrl.
    - rewrite run_snoc. by rewrite (proj2 (step_exists _ a)). }
  assert (a ∈ trace ++ [a]) as Hlast
    by (apply elem_of_app; right; by apply list_elem_of_singleton).
  assert (∀ b, b ∈ trace → b ∈ trace ++ [a]) as Hmono
    by (intros b Hbin; apply elem_of_app; by left).
  destruct a as [| | |[data|[[errs|]]]| |data]; simpl; unfold cancelEdit, edit;
    rewrite ?He; simpl.
  - split_and!; [done|done|eauto|lia|].
    intros path Hp. destruct (Hnav path Hp) as [[-> ?]|(d & ? & ->)]; eauto.
  - destruct (detail (sc p)) as [d|] eqn:Hdet; simpl.
    + split_and!; [done|done|eauto|lia|].
      intros path Hp. destruct (Hnav path Hp) as [[-> ?]|(d' & ? & ->)]; eauto.
    + exfalso. apply Hed; [congruence|done].
  - split_and!; [done|done|done|lia|].
    intros path Hp. apply elem_of_app in Hp as [Hp|Hp].
    + destruct (Hnav path Hp) as [[-> ?]|(d & ? & ->)]; eauto.
    + apply list_elem_of_singleton in Hp. discriminate.
  - split_and!; [done|done|done|lia|].
    intros path Hp. apply elem_of_app in Hp as [Hp|Hp].
    + destruct (Hnav path Hp) as [[-> ?]|(d & ? & ->)]; eauto.
    + repeat (apply elem_of_cons in Hp as [Hp|Hp]; [try discriminate|]);
        [|by apply elem_of_nil in Hp].
      injection Hp as ->. right. exists data. by rewrite Hb.
  - split_and!; [done|done|done|lia|].
    intros path Hp. apply elem_of_app in Hp as [Hp|Hp].
    + destruct (Hnav path Hp) as [[-> ?]|(d & ? & ->)]; eauto.
    + apply list_elem_of_singleton in Hp. discriminate.
  - split_and!; [done|done|done|lia|].
    intros path Hp. destruct (Hnav path Hp) as [[-> ?]|(d & ? & ->)]; eauto.
  - split_and!; [done|done|done|lia|].
    intros path Hp. apply elem_of_app in Hp as [Hp|Hp].
    + destruct (Hnav path Hp) as [[-> ?]|(d & ? & ->)]; eauto.
    + apply list_elem_of_singleton in Hp. injection Hp as ->. left. by rewrite Hb.
  - exfalso. by apply (Hrel data).
Qed.
End facts.

Lemma existing_page_navigation_witness :
  exists_of (Some "42") = true ∧
  let p := run (λ d : string, d) (λ d : string, d) "" (λ d : string, d)
             [Edit; Saved (Resolved "42"); Removed]
             (init (λ d : string, d) "" (λ d : string, d) (Some "42") (Some "42")
                   "/widgets") in
  exists_ (sc p) = true ∧
  baseUrl (sc p) = "/widgets" ∧
  historyBack p = 0 ∧
  ∀ path, LocationPath path ∈ effects (sc p) →
          path = "/widgets" ∧ Removed ∈ [Edit; Saved (Resolved "42"); Removed].
Proof.
  split; [reflexivity|].
  exact (existing_page_navigation (λ d : string, d) (λ d : string, d) ""
           (λ d : string, d) (Some "42") (Some "42") "/widgets"
           [Edit; Saved (Resolved "42"); Removed] eq_refl).
Defined.

Lemma new_page_stays_in_edit_mode_witness :
  exists_of (Some "new") = false ∧
  (∀ data : string, Reloaded data ∉ [CancelEdit; Saved (Resolved "7")]) ∧
  ((None : option string) = None →
   Edit ∉ ([CancelEdit; Saved (Resolved "7")] : list (@action string))) ∧
  let p := run (λ d : string, d) (λ d : string, d) "" (λ d : string, d)
             [CancelEdit; Saved (Resolved "7")]
             (init (λ d : string, d) "" (λ d : string, d) None (Some "new")
                   "/widgets") in
  exists_ (sc p) = false ∧
  detail (sc p) = None ∧
  is_Some (editDetail (sc p)) ∧
  historyBack p = cancels [CancelEdit; Saved (Resolved "7")] ∧
  ∀ path, LocationPath path ∈ effects (sc p) →
          (path = "/widgets" ∧ Removed ∈ [CancelEdit; Saved (Resolved "7")]) ∨
          ∃ data, Saved (Resolved data) ∈ [CancelEdit; Saved (Resolved "7")] ∧
                  path = "/widgets" +:+ "/" +:+ data.
Proof.
  assert (∀ data : string, Reloaded data ∉ [CancelEdit; Saved (Resolved "7")]) as H1.
  { intros data H. repeat (apply elem_of_cons in H as [H|H]; [discriminate|]).
    by apply elem_of_nil in H. }
  assert ((None : option string) = None →
          Edit ∉ ([CancelEdit; Saved (Resolved "7")] : list (@action string))) as H2.
  { intros _ H. repeat (apply elem_of_cons in H as [H|H]; [discriminate|]).
    by apply elem_of_nil in H. }
  split; [reflexivity|]. split; [exact H1|]. split; [exact H2|].
  exact (new_page_stays_in_edit_mode (λ d : string, d) (λ d : string, d) ""
           (λ d : string, d) None (Some "new") "/widgets"
           [CancelEdit; Saved (Resolved "7")] eq_refl H1 H2).
Defined.

End DetailLifecycleFacts.
